(** * instagramSearch: cached, ranked and paginated profile search

    A shallow embedding of [src/pages/api/instagramSearch.js] (the request
    handler of the Rapid-APi repository) and the verification of its
    specification.

    Conventions of the embedding.
    - JavaScript strings are [string]s whose characters are the code units
      U+0000..U+00FF; [toLowerCase], [startsWith], [includes] and [length]
      are the String methods of that name on this alphabet.
    - JavaScript numbers are [Number]s: [NaN], the two infinities and the
      finite doubles, which are only ever integers here and are given by
      their value in [Z].  [toNumber] rounds an integer to the nearest
      double, ties to even, and to an infinity from [2 ^ 1024 - 2 ^ 970]
      on; arithmetic rounds its exact result.  Zero has no sign: the
      handler never divides.
    - Arrays are [list]s; [slice] reads their length as [ToLength] leaves
      it, below [2 ^ 53].
    - A property that may be [undefined] is an [option]; the truthiness test
      that [!x], [x && ...] and [x || d] perform on such a property is
      [truthy]: a string is truthy when it is defined and not empty.
    - [fullSearchCache] is a [gmap] of the object's own properties, read
      through [cache_get], which also sees the two lower-case property names
      every object literal inherits.
    - [await] suspends the handler: a request is a [Task], a tree of
      synchronous segments separated by the two calls to the Apify client. *)

From stdpp Require Import gmap strings list fin_maps pretty.
From Stdlib Require Import Ascii Sorting.Sorted Sorting.Permutation.

Open Scope Z_scope.

(** ** Numbers *)

Module JsNumber.

Inductive Number : Type :=
  | NaN
  | Finite (value : Z)
  | Infinity
  | NegInfinity.

#[global] Instance Number_eq_dec : EqDecision Number.
Proof. solve_decision. Defined.

(** The double nearest to the integer [n >= 0], by its value: [n] itself
    when it has at most 53 bits, and otherwise its leading 53 bits rounded
    by the bits that follow them, a tie going to the even neighbour.  The
    value [2 ^ 1024] stands for an overflow. *)
Definition nearest (n : Z) : Z :=
  let bits := Z.log2 n + 1 in
  if bits <=? 53 then n
  else
    let shift := bits - 53 in
    let q := Z.shiftr n shift in
    let r := n - Z.shiftl q shift in
    let half := Z.shiftl 1 (shift - 1) in
    let q' := if (half <? r) || ((r =? half) && Z.odd q) then q + 1 else q in
    Z.shiftl q' shift.

(** The Number value of an integer. *)
Definition toNumber (z : Z) : Number :=
  let m := nearest (Z.abs z) in
  if 2 ^ 1024 <=? m then (if z <? 0 then NegInfinity else Infinity)
  else Finite (Z.sgn z * m).

Definition isNaN (a : Number) : bool :=
  match a with NaN => true | _ => false end.

(** [a < b] *)
Definition lt (a b : Number) : bool :=
  match a, b with
  | NaN, _ | _, NaN => false
  | Finite x, Finite y => x <? y
  | NegInfinity, NegInfinity => false
  | NegInfinity, _ => true
  | _, NegInfinity => false
  | Infinity, _ => false
  | Finite _, Infinity => true
  end.

(** [a > b] *)
Definition gt (a b : Number) : bool := lt b a.

Definition sign (a : Number) : Z :=
  match a with
  | NaN => 0
  | Finite x => Z.sgn x
  | Infinity => 1
  | NegInfinity => -1
  end.

(** [a * b] *)
Definition mul (a b : Number) : Number :=
  match a, b with
  | NaN, _ | _, NaN => NaN
  | Finite x, Finite y => toNumber (x * y)
  | _, _ =>
      match sign a * sign b with
      | 0 => NaN
      | Zpos _ => Infinity
      | Zneg _ => NegInfinity
      end
  end.

(** [a + b] *)
Definition add (a b : Number) : Number :=
  match a, b with
  | NaN, _ | _, NaN => NaN
  | Finite x, Finite y => toNumber (x + y)
  | Infinity, NegInfinity | NegInfinity, Infinity => NaN
  | Infinity, _ | _, Infinity => Infinity
  | NegInfinity, _ | _, NegInfinity => NegInfinity
  end.

Definition neg (a : Number) : Number :=
  match a with
  | NaN => NaN
  | Finite x => Finite (- x)
  | Infinity => NegInfinity
  | NegInfinity => Infinity
  end.

(** [a - b] *)
Definition sub (a b : Number) : Number := add a (neg b).

(** [ToIntegerOrInfinity]: every finite Number is an integer here. *)
Definition toIntegerOrInfinity (a : Number) : Number :=
  match a with NaN => Finite 0 | _ => a end.

(** Number to string, for a finite double [x >= 0] that is an integer: the
    digits are those of the integer [v] with the fewest significant digits
    that rounds to [x], the nearest to [x] when there are two, the one with
    the even last digit when they are as near. *)
Definition digitCount (z : Z) : Z := Z.of_nat (String.length (pretty z)).

Definition roundsTo (x v : Z) : bool :=
  match toNumber v with Finite y => y =? x | _ => false end.

(** The integer of [k] significant digits that stands for [x], a number of
    [n] digits, if there is one. *)
Definition candidate (x n k : Z) : option Z :=
  let p := 10 ^ (n - k) in
  let lo := (x / p) * p in
  let hi := lo + p in
  match roundsTo x lo, roundsTo x hi with
  | true, true =>
      if x - lo <? hi - x then Some lo
      else if hi - x <? x - lo then Some hi
      else if Z.even (lo / p) then Some lo else Some hi
  | true, false => Some lo
  | false, true => Some hi
  | false, false => None
  end.

(** A double is told from its neighbours by 17 significant digits. *)
Fixpoint shortest (x n k : Z) (fuel : nat) : Z :=
  match fuel with
  | O => x
  | S fuel' =>
      if n <? k then x
      else
        match candidate x n k with
        | Some v => v
        | None => shortest x n (k + 1) fuel'
        end
  end.

Fixpoint stripZeros (reversed : list ascii) : list ascii :=
  match reversed with
  | "0"%char :: rest => stripZeros rest
  | _ => reversed
  end.

Definition significant (v : Z) : string :=
  String.string_of_list_ascii
    (rev (stripZeros (rev (String.list_ascii_of_string (pretty v))))).

(** Up to 21 digits are written out, more are written with an exponent. *)
Definition magnitudeToString (x : Z) : string :=
  let v := shortest x (digitCount x) 1 17 in
  let n := digitCount v in
  if n <=? 21 then pretty v
  else
    match significant v with
    | String d EmptyString => String d EmptyString +:+ "e+" +:+ pretty (n - 1)
    | String d rest => String d EmptyString +:+ "." +:+ rest +:+ "e+" +:+ pretty (n - 1)
    | EmptyString => EmptyString
    end.

(** [`${a}`] *)
Definition toString (a : Number) : string :=
  match a with
  | NaN => "NaN"
  | Infinity => "Infinity"
  | NegInfinity => "-Infinity"
  | Finite z => if z <? 0 then "-" +:+ magnitudeToString (- z) else magnitudeToString z
  end.

End JsNumber.

Import JsNumber.

Coercion Finite : Z >-> Number.

Declare Scope number_scope.
Delimit Scope number_scope with num.
Infix "*" := mul : number_scope.
Infix "+" := add : number_scope.
Infix "-" := sub : number_scope.

(** ** Strings *)

Module JsString.

(** Code units that [toLowerCase] maps 32 places up: A-Z, and the Latin-1
    capitals U+00C0..U+00DE except the multiplication sign U+00D7. *)
Definition isUpper (n : N) : bool :=
  ((65 <=? n) && (n <=? 90) || (192 <=? n) && (n <=? 222) && negb (n =? 215))%N.

Definition lowerChar (c : ascii) : ascii :=
  let n := Ascii.N_of_ascii c in
  if isUpper n then Ascii.ascii_of_N (n + 32) else c.

(** [s.toLowerCase()] *)
Fixpoint toLowerCase (s : string) : string :=
  match s with
  | EmptyString => EmptyString
  | String c s' => String (lowerChar c) (toLowerCase s')
  end.

(** [s.startsWith(q)] *)
Definition startsWith (s q : string) : bool := String.prefix q s.

(** [s.includes(needle)] *)
Fixpoint includes (s needle : string) : bool :=
  String.prefix needle s ||
  match s with
  | EmptyString => false
  | String _ s' => includes s' needle
  end.

(** [s.length] *)
Definition length (s : string) : Z := Z.of_nat (String.length s).

(** White space and line terminators that [parseInt] skips. *)
Definition isWhiteSpace (c : ascii) : bool :=
  let n := Ascii.N_of_ascii c in
  ((9 <=? n) && (n <=? 13) || (n =? 32) || (n =? 160))%N.

Definition digitValue (c : ascii) : option Z :=
  let n := Ascii.N_of_ascii c in
  if ((48 <=? n) && (n <=? 57))%N then Some (Z.of_N n - 48) else None.

Fixpoint trimStart (s : string) : string :=
  match s with
  | String c s' => if isWhiteSpace c then trimStart s' else s
  | EmptyString => EmptyString
  end.

(** The value of the longest prefix of decimal digits, [acc] being the
    value of the digits already read; [None] when there is no digit. *)
Fixpoint readDigits (acc : option Z) (s : string) : option Z :=
  match s with
  | String c s' =>
      match digitValue c with
      | Some d => readDigits (Some (10 * default 0 acc + d)) s'
      | None => acc
      end
  | EmptyString => acc
  end.

(** The integer that [parseInt(s, 10)] reads: the digits that follow the
    white space and the sign; [None] when there is no digit. *)
Definition integerValue (s : string) : option Z :=
  match trimStart s with
  | String "-" s' => Z.opp <$> readDigits None s'
  | String "+" s' => readDigits None s'
  | s' => readDigits None s'
  end.

(** [parseInt(s, 10)]: the Number value of that integer. *)
Definition parseInt (s : string) : Number :=
  from_option toNumber NaN (integerValue s).

End JsString.

Import JsString.

(** The truthiness of a property that is a string when it is defined. *)
Definition truthy (o : option string) : bool :=
  match o with
  | Some s => negb (String.eqb s "")
  | None => false
  end.

(** [o || d] for a string default. *)
Definition or_else (o : option string) (d : string) : string :=
  if truthy o then default d o else d.

(** ** Data model *)

(** A record of the provider's dataset: the properties the handler reads. *)
Record RawRecord : Type := mkRawRecord {
  id : option string;
  username : option string;
  bio : option string;
  profilePicUrlHD : option string;
  profilePicUrl : option string;
}.

Record Profile : Type := mkProfile {
  profile_id : option string;
  profile_username : option string;
  profile_bio : string;
  profilePicture : string;
}.

#[global] Instance RawRecord_eq_dec : EqDecision RawRecord.
Proof. solve_decision. Defined.

#[global] Instance Profile_eq_dec : EqDecision Profile.
Proof. solve_decision. Defined.

Definition MAX_PAGES : Z := 7.

(** ** Ranking (lines 78-112) *)

Section Ranking.

(** The lower-cased query [q] of line 79. *)
Variable q : string.

(** [(item.username || '').toLowerCase()] *)
Definition userOf (item : RawRecord) : string :=
  toLowerCase (or_else (username item) "").

(** The predicate of [findIndex] and of the first [filter]. *)
Definition isExact (item : RawRecord) : bool := String.eqb (userOf item) q.

(** The predicate of the second [filter]. *)
Definition notExact (item : RawRecord) : bool := negb (String.eqb (userOf item) q).

(** The comparator handed to [sort], the same in both branches. *)
Definition comparator (a b : RawRecord) : Z :=
  let aUser := userOf a in
  let bUser := userOf b in
  let aStarts := startsWith aUser q in
  let bStarts := startsWith bUser q in
  if aStarts && negb bStarts then -1
  else if negb aStarts && bStarts then 1
  else length aUser - length bUser.

End Ranking.

(** [Array.prototype.sort]: the sort is stable, and the comparator is
    consistent ([comparator_total], [comparator_trans]), so the result is the
    one stable sorted rearrangement ([sort_unique]); it is computed here by
    insertion, each element going before the first one that does not sort
    strictly before it. *)
Section Sort.

Context {A : Type} (cmp : A → A → Z).

Fixpoint insert_sorted (x : A) (l : list A) : list A :=
  match l with
  | [] => [x]
  | y :: l' => if cmp x y <=? 0 then x :: l else y :: insert_sorted x l'
  end.

Fixpoint sort (l : list A) : list A :=
  match l with
  | [] => []
  | x :: l' => insert_sorted x (sort l')
  end.

(** [a] may stand before [b]: the comparator is not positive. *)
Definition before (a b : A) : Prop := cmp a b ≤ 0.

(** [a] and [b] tie: the comparator is zero. *)
Definition tie (a b : A) : bool := cmp a b =? 0.

End Sort.

(** The order the comparator stands for: a username that starts with the
    query goes before one that does not, and of two usernames in the same
    group the shorter goes first. *)
Definition startsWithQuery (q : string) (item : RawRecord) : bool :=
  startsWith (userOf item) q.

Definition goesBefore (q : string) (a b : RawRecord) : Prop :=
  (startsWithQuery q b = true → startsWithQuery q a = true) ∧
  (startsWithQuery q a = startsWithQuery q b →
   (String.length (userOf a) ≤ String.length (userOf b))%nat).

(** [arr.findIndex(p)]; [None] is [-1]. *)
Fixpoint findIndex {A : Type} (p : A → bool) (l : list A) : option nat :=
  match l with
  | [] => None
  | x :: l' => if p x then Some 0%nat else S <$> findIndex p l'
  end.

(** [orderedData] as the block of lines 79-112 computes it from [fullData]
    and the lower-cased query.  [exactMatches[0]] is defined whenever
    [findIndex] found an index ([exact_head]). *)
Definition rank (q : string) (fullData : list RawRecord) : list RawRecord :=
  match findIndex (isExact q) fullData with
  | Some _ =>
      let exactMatches := List.filter (isExact q) fullData in
      let remainingProfiles := sort (comparator q) (List.filter (notExact q) fullData) in
      match exactMatches with
      | first :: _ => first :: remainingProfiles
      | [] => remainingProfiles
      end
  | None => sort (comparator q) fullData
  end.

(** ** Pagination and projection (lines 114-130) *)

(** [LengthOfArrayLike]: the length, which [ToLength] keeps below
    [2 ^ 53]. *)
Definition lengthOfArrayLike {A : Type} (arr : list A) : Z :=
  Z.min (Z.of_nat (List.length arr)) (2 ^ 53 - 1).

(** The index that a bound of [slice] stands for in an array of length
    [len]: [NaN] is 0, a negative bound counts from the end, and the bound
    is clamped to the array. *)
Definition relativeIndex (len : Z) (bound : Number) : Z :=
  match toIntegerOrInfinity bound with
  | NegInfinity => 0
  | Finite relative =>
      if relative <? 0 then Z.max (len + relative) 0 else Z.min relative len
  | Infinity => len
  | NaN => 0
  end.

(** [arr.slice(start, end)] *)
Definition slice {A : Type} (arr : list A) (start end_ : Number) : list A :=
  let len := lengthOfArrayLike arr in
  let k := relativeIndex len start in
  let final := relativeIndex len end_ in
  take (Z.to_nat (final - k)) (drop (Z.to_nat k) arr).

Definition paginate (orderedData : list RawRecord) (pageInt limitInt : Number)
  : list RawRecord :=
  let startIndex := ((pageInt - 1) * limitInt)%num in
  let endIndex := (startIndex + limitInt)%num in
  slice orderedData startIndex endIndex.

(** The object literal of lines 125-130. *)
Definition project (item : RawRecord) : Profile :=
  {| profile_id := if truthy (id item) then id item else username item;
     profile_username := username item;
     profile_bio := or_else (bio item) "";
     profilePicture :=
       if truthy (profilePicUrlHD item) then default "" (profilePicUrlHD item)
       else or_else (profilePicUrl item) "/no-profile-pic-img.png" |}.

(** ** Requests and responses *)

Record Request : Type := mkRequest {
  method : string;
  query : option string;
  platform : option string;
  page : option string;
  limit : option string;
}.

Inductive Body : Type :=
  | ErrorBody (error : string)
  | PageBody (profiles : list Profile) (total currentPage totalPages : Number).

Record Response : Type := mkResponse {
  status : Z;
  body : Body;
}.

Definition fail (code : Z) (error : string) : Response :=
  {| status := code; body := ErrorBody error |}.

(** Lines 78-141: what the handler answers once it holds [fullData]. *)
Definition serve (query : string) (pageInt limitInt : Number) (fullData : list RawRecord)
  : Response :=
  let q := toLowerCase query in
  let orderedData := rank q fullData in
  let paginatedItems := paginate orderedData pageInt limitInt in
  if bool_decide (List.length paginatedItems = 0%nat) then
    fail 404 ("No related profiles found for page " +:+ toString pageInt +:+ ".")
  else
    {| status := 200;
       body := PageBody (List.map project paginatedItems)
                        (Z.of_nat (List.length fullData)) pageInt MAX_PAGES |}.

(** ** The cache *)

Abbreviation Cache := (gmap string (list RawRecord)).

(** What [fullSearchCache[cacheKey]] evaluates to. *)
Inductive Slot : Type :=
  | Cached (fullData : list RawRecord)
  | Inherited
  | Missing.

(** The lower-case property names that [{}] inherits from
    [Object.prototype]; a cache key is lower-case, so no other inherited
    name can be one. *)
Definition inheritedKey (key : string) : bool :=
  String.eqb key "constructor" || String.eqb key "__proto__".

Definition cache_get (cache : Cache) (cacheKey : string) : Slot :=
  match cache !! cacheKey with
  | Some fullData => Cached fullData
  | None => if inheritedKey cacheKey then Inherited else Missing
  end.

(** ** The external collaborator *)

Record JsError : Type := mkError { message : option string }.

Inductive Settled (A : Type) : Type :=
  | Fulfilled (value : A)
  | Rejected (error : JsError).
Arguments Fulfilled {A} value.
Arguments Rejected {A} error.

Record ActorInput : Type := mkInput {
  search : string;
  searchType : string;
  searchLimit : Number;
  offset : Number;
}.

(** The result of the actor run ([None]: no run), and of [listItems]. *)
Record Run : Type := mkRun { defaultDatasetId : option string }.
Record Listing : Type := mkListing { items : option (list RawRecord) }.

(** ** The handler *)

(** A request in progress: it answers, writes the cache and goes on, or
    waits for one of the two calls to settle. *)
Inductive Task : Type :=
  | Respond (res : Response)
  | Store (cacheKey : string) (fullData : list RawRecord) (next : Task)
  | AwaitCall (input : ActorInput) (resume : Settled (option Run) → Task)
  | AwaitListItems (datasetId : string) (limit offset : Number)
                   (resume : Settled Listing → Task).

(** [error.message?.includes(s)] *)
Definition messageIncludes (error : JsError) (s : string) : bool :=
  match message error with
  | Some m => includes m s
  | None => false
  end.

(** The catch block, lines 143-152. *)
Definition catch (error : JsError) : Response :=
  if messageIncludes error "TIMEOUT" then
    fail 504 "Scraper timed out. Please try again later."
  else if messageIncludes error "invalid token" then
    fail 401 "Invalid Apify token."
  else
    fail 500 ("Internal Server Error. " +:+ or_else (message error) "Unknown error").

(** What [fullData.findIndex(...)] throws when [fullData] is an inherited
    property and not an array. *)
Definition notAFunction : JsError :=
  {| message := Some "fullData.findIndex is not a function" |}.

(** The [input] object of lines 54-59. *)
Definition actorInput (query : string) (totalFetchLimit : Number) : ActorInput :=
  {| search := query; searchType := "user";
     searchLimit := totalFetchLimit; offset := 0 |}.

(** Lines 48-76: the cache miss. *)
Definition fetch (query cacheKey : string) (pageInt limitInt : Number) : Task :=
  let totalFetchLimit := (MAX_PAGES * limitInt)%num in
  let input := actorInput query totalFetchLimit in
  AwaitCall input (λ called,
    match called with
    | Rejected error => Respond (catch error)
    | Fulfilled run =>
        match run with
        | Some {| defaultDatasetId := Some datasetId |} =>
            if String.eqb datasetId "" then
              Respond (fail 502 "Apify actor did not return a valid dataset. Possibly a scraping failure.")
            else
              AwaitListItems datasetId totalFetchLimit 0 (λ listed,
                match listed with
                | Rejected error => Respond (catch error)
                | Fulfilled {| items := Some ((_ :: _) as fullData) |} =>
                    Store cacheKey fullData (Respond (serve query pageInt limitInt fullData))
                | Fulfilled _ => Respond (fail 404 "No related profiles found.")
                end)
        | _ => Respond (fail 502 "Apify actor did not return a valid dataset. Possibly a scraping failure.")
        end
    end).

(** [`Invalid "${name}" parameter. Must be a positive integer.`], the
    message of lines 31 and 34. *)
Definition invalidParameter (name : string) : string :=
  let quote := String (Ascii.ascii_of_nat 34) EmptyString in
  "Invalid " +:+ quote +:+ name +:+ quote +:+ " parameter. Must be a positive integer.".

(** [parseInt(page, 10)] and [parseInt(limit, 10)]; [page] and [limit]
    default to 1 and 5 when they are [undefined]. *)
Definition pageInt (req : Request) : Number :=
  from_option parseInt (Finite 1) (page req).

Definition limitInt (req : Request) : Number :=
  from_option parseInt (Finite 5) (limit req).

(** Lines 17-38: the parameters a request is served with, or the response
    that turns it down. *)
Definition validate (req : Request) : Response + string * Number * Number :=
  match query req with
  | None => inl (fail 400 "Invalid query parameter. Provide a search term.")
  | Some query =>
      if String.eqb query "" || String.eqb query "*" then
        inl (fail 400 "Invalid query parameter. Provide a search term.")
      else if truthy (platform req)
              && negb (String.eqb (toLowerCase (default "" (platform req))) "instagram") then
        inl (fail 400 "Please select the correct platform. Only Instagram is supported.")
      else
        let pageInt := pageInt req in
        let limitInt := limitInt req in
        if isNaN pageInt || lt pageInt 1 then
          inl (fail 400 (invalidParameter "page"))
        else if isNaN limitInt || lt limitInt 1 then
          inl (fail 400 (invalidParameter "limit"))
        else if gt pageInt MAX_PAGES then
          inl (fail 400 ("Page " +:+ toString pageInt +:+ " exceeds the maximum of "
                         +:+ toString MAX_PAGES +:+ " pages."))
        else inr (query, pageInt, limitInt)
  end.

(** Lines 10-153, up to the first [await]. *)
Definition handler (req : Request) (fullSearchCache : Cache) : Task :=
  if negb (String.eqb (method req) "GET") then
    Respond (fail 405 "Method Not Allowed. Only GET is supported.")
  else
    match validate req with
    | inl res => Respond res
    | inr (query, pageInt, limitInt) =>
        let cacheKey := toLowerCase query in
        match cache_get fullSearchCache cacheKey with
        | Cached fullData => Respond (serve query pageInt limitInt fullData)
        | Inherited => Respond (catch notAFunction)
        | Missing => fetch query cacheKey pageInt limitInt
        end
    end.

(** ** The server: requests interleaved at their awaits *)

(** What a request asks of the Apify client. *)
Inductive Invocation : Type :=
  | Called (input : ActorInput)
  | Listed (datasetId : string) (limit offset : Number).

(** The process: the cache object, the requests suspended at an [await],
    each under the ticket it got on arrival, what each request asked of the
    client, and the responses sent. *)
Record Server : Type := mkServer {
  fullSearchCache : Cache;
  nextTicket : nat;
  suspended : gmap nat Task;
  invocations : list (nat * Invocation);
  sent : list (nat * Response);
}.

Definition boot : Server :=
  {| fullSearchCache := ∅; nextTicket := 0; suspended := ∅;
     invocations := []; sent := [] |}.

(** Request [n] runs [task] up to its next [await] or to its response. *)
Fixpoint advance (n : nat) (task : Task) (s : Server) : Server :=
  match task with
  | Respond res =>
      {| fullSearchCache := fullSearchCache s; nextTicket := nextTicket s;
         suspended := suspended s; invocations := invocations s;
         sent := sent s ++ [(n, res)] |}
  | Store cacheKey fullData next =>
      advance n next
        {| fullSearchCache := <[cacheKey := fullData]> (fullSearchCache s);
           nextTicket := nextTicket s; suspended := suspended s;
           invocations := invocations s; sent := sent s |}
  | AwaitCall input _ =>
      {| fullSearchCache := fullSearchCache s; nextTicket := nextTicket s;
         suspended := <[n := task]> (suspended s);
         invocations := invocations s ++ [(n, Called input)]; sent := sent s |}
  | AwaitListItems datasetId limit offset _ =>
      {| fullSearchCache := fullSearchCache s; nextTicket := nextTicket s;
         suspended := <[n := task]> (suspended s);
         invocations := invocations s ++ [(n, Listed datasetId limit offset)];
         sent := sent s |}
  end.

Inductive Event : Type :=
  | Arrive (req : Request)
  | CallSettles (n : nat) (called : Settled (option Run))
  | ListSettles (n : nat) (listed : Settled Listing).

Definition wake (n : nat) (s : Server) : Server :=
  {| fullSearchCache := fullSearchCache s; nextTicket := nextTicket s;
     suspended := delete n (suspended s); invocations := invocations s;
     sent := sent s |}.

Definition issue_ticket (s : Server) : Server :=
  {| fullSearchCache := fullSearchCache s; nextTicket := S (nextTicket s);
     suspended := suspended s; invocations := invocations s; sent := sent s |}.

(** One turn of the event loop.  An event that settles a call nobody is
    waiting for changes nothing. *)
Definition step (s : Server) (ev : Event) : Server :=
  match ev with
  | Arrive req =>
      advance (nextTicket s) (handler req (fullSearchCache s)) (issue_ticket s)
  | CallSettles n called =>
      match suspended s !! n with
      | Some (AwaitCall _ resume) => advance n (resume called) (wake n s)
      | _ => s
      end
  | ListSettles n listed =>
      match suspended s !! n with
      | Some (AwaitListItems _ _ _ resume) => advance n (resume listed) (wake n s)
      | _ => s
      end
  end.

Definition run (s : Server) (evs : list Event) : Server := foldl step s evs.

(** ** One request on its own *)

(** The Apify client as a function of what it is asked. *)
Record Provider : Type := mkProvider {
  call : ActorInput → Settled (option Run);
  listItems : string → Number → Number → Settled Listing;
}.

(** The request runs to its response, every [await] settling at once. *)
Fixpoint complete (apify : Provider) (task : Task) (cache : Cache)
  : Response * Cache * list Invocation :=
  match task with
  | Respond res => (res, cache, [])
  | Store cacheKey fullData next => complete apify next (<[cacheKey := fullData]> cache)
  | AwaitCall input resume =>
      let '(res, cache', asked) := complete apify (resume (call apify input)) cache in
      (res, cache', Called input :: asked)
  | AwaitListItems datasetId limit offset resume =>
      let '(res, cache', asked) :=
        complete apify (resume (listItems apify datasetId limit offset)) cache in
      (res, cache', Listed datasetId limit offset :: asked)
  end.

Definition serveRequest (apify : Provider) (req : Request) (cache : Cache)
  : Response * Cache * list Invocation :=
  complete apify (handler req cache) cache.

(** ** The ranking block on the heap *)

(** Arrays are objects: [fullData] names the array the cache holds, and
    [sort] rearranges an array in place.  The block of lines 79-112 is
    written here over a heap of arrays, to see which arrays it writes. *)
Module Arrays.

Abbreviation Heap := (gmap nat (list RawRecord)).

Definition Op (A : Type) : Type := Heap → A * Heap.

#[local] Instance Op_ret : MRet Op := λ A a h, (a, h).

#[local] Instance Op_bind : MBind Op :=
  λ A B f m h, let '(a, h') := m h in f a h'.

(** A new array. *)
Definition alloc (arr : list RawRecord) : Op nat :=
  λ h, let r := fresh (dom h) in (r, <[r := arr]> h).

Definition read (r : nat) : Op (list RawRecord) :=
  λ h, (default [] (h !! r), h).

(** [r.filter(p)] *)
Definition filter_ (p : RawRecord → bool) (r : nat) : Op nat :=
  arr ← read r; alloc (List.filter p arr).

(** [[...r]] *)
Definition spread (r : nat) : Op nat :=
  arr ← read r; alloc arr.

(** [r.sort(cmp)] *)
Definition sort_ (cmp : RawRecord → RawRecord → Z) (r : nat) : Op unit :=
  λ h, (tt, alter (sort cmp) r h).

(** [[first, ...r]], [first] being [exactMatches[0]]. *)
Definition cons_spread (exactMatches r : nat) : Op nat :=
  exact ← read exactMatches;
  arr ← read r;
  alloc (match exact with first :: _ => first :: arr | [] => arr end).

Definition rankBlock (q : string) (fullData : nat) : Op nat :=
  data ← read fullData;
  match findIndex (isExact q) data with
  | Some _ =>
      exactMatches ← filter_ (isExact q) fullData;
      remainingProfiles ← filter_ (notExact q) fullData;
      sort_ (comparator q) remainingProfiles;;
      cons_spread exactMatches remainingProfiles
  | None =>
      orderedData ← spread fullData;
      sort_ (comparator q) orderedData;;
      mret orderedData
  end.

End Arrays.

(** The slices of pages 1 to [k], in order. *)
Definition pagesUpTo (orderedData : list RawRecord) (limitInt : Number) (k : nat)
  : list (list RawRecord) :=
  List.map (λ page, paginate orderedData (Finite (Z.of_nat page)) limitInt) (seq 1 k).

(** ** The words of the specification *)

(** The integers that the [page] and [limit] of a request stand for, 1
    and 5 when the parameter is not given; [None] when it has no digits
    where a number is read. *)
Definition requestedPage (req : Request) : option Z :=
  from_option integerValue (Some 1) (page req).

Definition requestedLimit (req : Request) : option Z :=
  from_option integerValue (Some 5) (limit req).

(** A parameter parses to an integer that is at least 1. *)
Definition positiveInteger (n : option Z) : Prop := ∃ k, n = Some k ∧ 1 ≤ k.

(** The ways in which the parameters of a request are invalid: the query is
    absent (or empty) or is the wildcard, a platform is given and is not
    the supported one whatever the case of its letters, [page] or [limit]
    is not a positive integer, or the page is beyond [MAX_PAGES]. *)
Inductive InvalidParameters (req : Request) : Prop :=
  | QueryAbsent : truthy (query req) = false → InvalidParameters req
  | QueryWildcard : query req = Some "*" → InvalidParameters req
  | WrongPlatform p :
      platform req = Some p → p ≠ "" → toLowerCase p ≠ "instagram" →
      InvalidParameters req
  | BadPage : ¬ positiveInteger (requestedPage req) → InvalidParameters req
  | BadLimit : ¬ positiveInteger (requestedLimit req) → InvalidParameters req
  | PageBeyondMax k : requestedPage req = Some k → k > MAX_PAGES → InvalidParameters req.

(** A property is absent when it is [undefined] or the empty string: this
    is what the specification calls absent for the query, whose empty
    value it rejects as it rejects a missing one. *)
Definition absent (o : option string) : Prop := o = None ∨ o = Some "".

(** What the specification's DatasetFetcher does with a query and a
    number of items: it fails with a message, produces no result
    container, produces a container without items, or returns items.  It
    is the two calls to the client taken together. *)
Inductive Fetched : Type :=
  | Failed (error : JsError)
  | NoResultSet
  | EmptyResult
  | Items (fullData : list RawRecord).

Definition datasetFetcher (apify : Provider) (query : string) (total : Number) : Fetched :=
  match call apify (actorInput query total) with
  | Rejected error => Failed error
  | Fulfilled None => NoResultSet
  | Fulfilled (Some run) =>
      if truthy (defaultDatasetId run) then
        match listItems apify (default "" (defaultDatasetId run)) total 0 with
        | Rejected error => Failed error
        | Fulfilled {| items := Some (item :: rest) |} => Items (item :: rest)
        | Fulfilled _ => EmptyResult
        end
      else NoResultSet
  end.

(** The request asked the DatasetFetcher for something. *)
Definition invoked (asked : list Invocation) : Prop := asked ≠ [].

(** Every cache write of a task is one that [ok] allows. *)
Fixpoint storesOnly (ok : string → list RawRecord → Prop) (task : Task) : Prop :=
  match task with
  | Respond _ => True
  | Store cacheKey fullData next => ok cacheKey fullData ∧ storesOnly ok next
  | AwaitCall _ resume => ∀ called, storesOnly ok (resume called)
  | AwaitListItems _ _ _ resume => ∀ listed, storesOnly ok (resume listed)
  end.

(** Tickets are handed out in order: a ticket that is suspended or has
    asked for something has been issued. *)
Definition issued (s : Server) : Prop :=
  (∀ n task, suspended s !! n = Some task → (n < nextTicket s)%nat) ∧
  (∀ n inv, (n, inv) ∈ invocations s → (n < nextTicket s)%nat).

(** Request [n] is over, and has asked for nothing. *)
Definition silent (n : nat) (s : Server) : Prop :=
  (n < nextTicket s)%nat ∧ suspended s !! n = None ∧
  ∀ inv, (n, inv) ∉ invocations s.



(** ** Sample data *)

(** A record with a username and nothing else. *)
Definition named (name : string) : RawRecord :=
  {| id := None; username := Some name; bio := None;
     profilePicUrlHD := None; profilePicUrl := None |}.

(** A GET request for [term], with no platform. *)
Definition get (term : string) (page limit : option string) : Request :=
  {| method := "GET"; query := Some term; platform := None;
     page := page; limit := limit |}.

(** A client whose actor run has a dataset that lists [fullData]. *)
Definition listing (fullData : list RawRecord) : Provider :=
  {| call := λ _, Fulfilled (Some {| defaultDatasetId := Some "dataset" |});
     listItems := λ _ _ _, Fulfilled {| items := Some fullData |} |}.

(** A client whose actor call is rejected with [error]. *)
Definition failing (error : JsError) : Provider :=
  {| call := λ _, Rejected error;
     listItems := λ _ _ _, Rejected error |}.

(** A dataset of two records, and the second page of size 1 of the query
    "Alice". *)
Definition twoRecords : list RawRecord := [named "alice_w"; named "alice"].

Definition secondPage : Request := get "Alice" (Some "2") (Some "1").

(** A limit of 310 digits, which [parseInt] reads as [Infinity]. *)
Definition nines : string := String.string_of_list_ascii (replicate 310 "9"%char).

(** The first request for "Alice" misses, and its two awaits settle with a
    dataset of two records. *)
Definition firstFetch : list Event :=
  [Arrive (get "Alice" None None);
   CallSettles 0 (Fulfilled (Some {| defaultDatasetId := Some "dataset" |}));
   ListSettles 0 (Fulfilled {| items := Some twoRecords |})].


(** ** Further vocabulary *)

(** The number of records whose username equals the query. *)
Definition exactCount (q : string) (fullData : list RawRecord) : nat :=
  List.length (List.filter (isExact q) fullData).

(** The ways a request on its own can end: the response, the cache it
    leaves, and what it asked of the Apify client. *)
Inductive Outcome (apify : Provider) (req : Request) (cache : Cache)
  : Response → Cache → list Invocation → Prop :=
  | EndsNotGet :
      method req ≠ "GET" →
      Outcome apify req cache
        (fail 405 "Method Not Allowed. Only GET is supported.") cache []
  | EndsInvalid error :
      method req = "GET" → validate req = inl (fail 400 error) →
      Outcome apify req cache (fail 400 error) cache []
  | EndsHit term pageNo size fullData :
      method req = "GET" → validate req = inr (term, pageNo, size) →
      cache !! toLowerCase term = Some fullData →
      Outcome apify req cache (serve term pageNo size fullData) cache []
  | EndsInherited term pageNo size :
      method req = "GET" → validate req = inr (term, pageNo, size) →
      cache_get cache (toLowerCase term) = Inherited →
      Outcome apify req cache (catch notAFunction) cache []
  | EndsCallRejected term pageNo size error :
      method req = "GET" → validate req = inr (term, pageNo, size) →
      cache_get cache (toLowerCase term) = Missing →
      call apify (actorInput term (MAX_PAGES * size)%num) = Rejected error →
      Outcome apify req cache (catch error) cache
        [Called (actorInput term (MAX_PAGES * size)%num)]
  | EndsNoDataset term pageNo size run :
      method req = "GET" → validate req = inr (term, pageNo, size) →
      cache_get cache (toLowerCase term) = Missing →
      call apify (actorInput term (MAX_PAGES * size)%num) = Fulfilled run →
      truthy (run ≫= defaultDatasetId) = false →
      Outcome apify req cache
        (fail 502 "Apify actor did not return a valid dataset. Possibly a scraping failure.")
        cache [Called (actorInput term (MAX_PAGES * size)%num)]
  | EndsListRejected term pageNo size datasetId error :
      method req = "GET" → validate req = inr (term, pageNo, size) →
      cache_get cache (toLowerCase term) = Missing →
      call apify (actorInput term (MAX_PAGES * size)%num)
        = Fulfilled (Some {| defaultDatasetId := Some datasetId |}) →
      datasetId ≠ "" →
      listItems apify datasetId (MAX_PAGES * size)%num 0 = Rejected error →
      Outcome apify req cache (catch error) cache
        [Called (actorInput term (MAX_PAGES * size)%num);
         Listed datasetId (MAX_PAGES * size)%num 0]
  | EndsNoItems term pageNo size datasetId listed :
      method req = "GET" → validate req = inr (term, pageNo, size) →
      cache_get cache (toLowerCase term) = Missing →
      call apify (actorInput term (MAX_PAGES * size)%num)
        = Fulfilled (Some {| defaultDatasetId := Some datasetId |}) →
      datasetId ≠ "" →
      listItems apify datasetId (MAX_PAGES * size)%num 0 = Fulfilled listed →
      default [] (items listed) = [] →
      Outcome apify req cache (fail 404 "No related profiles found.") cache
        [Called (actorInput term (MAX_PAGES * size)%num);
         Listed datasetId (MAX_PAGES * size)%num 0]
  | EndsFetched term pageNo size datasetId fullData :
      method req = "GET" → validate req = inr (term, pageNo, size) →
      cache_get cache (toLowerCase term) = Missing →
      call apify (actorInput term (MAX_PAGES * size)%num)
        = Fulfilled (Some {| defaultDatasetId := Some datasetId |}) →
      datasetId ≠ "" →
      listItems apify datasetId (MAX_PAGES * size)%num 0
        = Fulfilled {| items := Some fullData |} →
      fullData ≠ [] →
      Outcome apify req cache (serve term pageNo size fullData)
        (<[toLowerCase term := fullData]> cache)
        [Called (actorInput term (MAX_PAGES * size)%num);
         Listed datasetId (MAX_PAGES * size)%num 0].

(** What holds of every entry the handler writes: the key is a lower-cased
    query, so it is lower-case, it is none of the inherited names, it is
    neither empty nor the wildcard, and the dataset has an item. *)
Definition entryOk (cacheKey : string) (fullData : list RawRecord) : Prop :=
  toLowerCase cacheKey = cacheKey ∧ inheritedKey cacheKey = false ∧
  cacheKey ≠ "" ∧ cacheKey ≠ "*" ∧ fullData ≠ [].

(** Every entry of the cache is one that [ok] allows, and the suspended
    requests will only write such entries. *)
Definition kept (ok : string → list RawRecord → Prop) (s : Server) : Prop :=
  map_Forall ok (fullSearchCache s) ∧
  map_Forall (λ _ task, storesOnly ok task) (suspended s).


(** What the listing a request waits for leads to: when it is fulfilled
    with at least one item, one cache write of the items listed and then
    a response; a response and no write otherwise. *)
Definition listingWrites (resume : Settled Listing → Task) : Prop :=
  ∀ listed,
    match listed with
    | Fulfilled {| items := Some ((_ :: _) as fullData) |} =>
        ∃ cacheKey res, resume listed = Store cacheKey fullData (Respond res)
    | _ => ∃ res, resume listed = Respond res
    end.

(** What a suspended request is: it waits for the actor call, which leads
    to a response or to the wait for the listing, or it waits for the
    listing. *)
Definition waiting (task : Task) : Prop :=
  match task with
  | AwaitCall _ resume =>
      ∀ called,
        match resume called with
        | Respond _ => True
        | AwaitListItems _ _ _ resume' => listingWrites resume'
        | _ => False
        end
  | AwaitListItems _ _ _ resume => listingWrites resume
  | _ => False
  end.
(** * Verification *)

(** ** Sorting with a consistent comparator *)

Section SortFacts.

Context {A : Type} (cmp : A → A → Z).

Hypothesis cmp_total : ∀ a b, before cmp a b ∨ before cmp b a.
Hypothesis cmp_trans : ∀ a b c, before cmp a b → before cmp b c → before cmp a c.
Hypothesis cmp_tie : ∀ a b, cmp a b = 0 ↔ before cmp a b ∧ before cmp b a.

Lemma insert_sorted_perm x l : Permutation (insert_sorted cmp x l) (x :: l).
Proof.
  induction l as [|y l IH]; simpl; [done|].
  destruct (cmp x y <=? 0); [done|].
  rewrite IH. apply perm_swap.
Qed.

Lemma sort_perm l : Permutation (sort cmp l) l.
Proof.
  induction l as [|x l IH]; simpl; [done|].
  by rewrite insert_sorted_perm, IH.
Qed.

Lemma sort_length l : List.length (sort cmp l) = List.length l.
Proof. apply Permutation_length, sort_perm. Qed.

Lemma insert_sorted_sorted x l :
  StronglySorted (before cmp) l → StronglySorted (before cmp) (insert_sorted cmp x l).
Proof.
  induction 1 as [|y l Hl IH Hy]; simpl.
  - repeat constructor.
  - destruct (Z.leb_spec (cmp x y) 0) as [Hxy|Hxy].
    + constructor; [by constructor|].
      constructor; [done|].
      eapply Forall_impl; [exact Hy|]. intros z Hz. by eapply cmp_trans.
    + constructor; [done|].
      assert (Hyx : before cmp y x).
      { destruct (cmp_total x y) as [H|H]; [unfold before in H; lia|done]. }
      eapply Permutation_Forall; [symmetry; apply insert_sorted_perm|].
      by constructor.
Qed.

Lemma sort_sorted l : StronglySorted (before cmp) (sort cmp l).
Proof.
  induction l as [|x l IH]; simpl; [constructor|].
  by apply insert_sorted_sorted.
Qed.

(** An element that may stand before all of [l] is inserted in front. *)
Lemma insert_sorted_front x l :
  Forall (before cmp x) l → insert_sorted cmp x l = x :: l.
Proof.
  destruct 1 as [|y l Hxy _]; simpl; [done|].
  unfold before in Hxy. by destruct (Z.leb_spec (cmp x y) 0); [|lia].
Qed.

(** Sorting leaves a sorted array as it is. *)
Lemma sort_sorted_id l : StronglySorted (before cmp) l → sort cmp l = l.
Proof.
  induction 1 as [|x l Hl IH Hx]; simpl; [done|].
  rewrite IH. by apply insert_sorted_front.
Qed.

Lemma sort_idempotent l : sort cmp (sort cmp l) = sort cmp l.
Proof. apply sort_sorted_id, sort_sorted. Qed.

Lemma tie_before_l x a y : tie cmp x a = true → ¬ before cmp a y → tie cmp x y = false.
Proof.
  unfold tie. intros Hxa Hay. apply Z.eqb_eq, cmp_tie in Hxa as [Hxa Hax].
  apply Z.eqb_neq. intros Hxy. apply cmp_tie in Hxy as [Hxy Hyx].
  apply Hay. by eapply cmp_trans.
Qed.

Lemma insert_sorted_tie x a l :
  List.filter (tie cmp x) (insert_sorted cmp a l) = List.filter (tie cmp x) (a :: l).
Proof.
  induction l as [|y l IH]; [done|].
  cbn [insert_sorted]. destruct (Z.leb_spec (cmp a y) 0) as [Hay|Hay]; [done|].
  cbn [List.filter] in *. rewrite IH.
  destruct (tie cmp x a) eqn:Hxa; [|done].
  rewrite (tie_before_l x a y); [done..|]. unfold before. lia.
Qed.

(** The sort is stable: the elements that tie with [x] keep their order. *)
Lemma sort_stable x l : List.filter (tie cmp x) (sort cmp l) = List.filter (tie cmp x) l.
Proof.
  induction l as [|a l IH]; [done|].
  cbn [sort]. rewrite insert_sorted_tie. cbn [List.filter]. by rewrite IH.
Qed.

Lemma tie_refl a : tie cmp a a = true.
Proof.
  apply Z.eqb_eq, cmp_tie. by destruct (cmp_total a a).
Qed.

Lemma tie_sym a b : tie cmp a b = tie cmp b a.
Proof.
  unfold tie. destruct (Z.eqb_spec (cmp a b) 0) as [H|H];
    destruct (Z.eqb_spec (cmp b a) 0) as [H'|H']; try done.
  - apply cmp_tie in H as [??]. destruct H'. by apply cmp_tie.
  - apply cmp_tie in H' as [??]. destruct H. by apply cmp_tie.
Qed.

Lemma tie_filter_nil l : (∀ x, List.filter (tie cmp x) l = []) → l = [].
Proof.
  destruct l as [|a l]; [done|]. intros H. specialize (H a).
  cbn in H. by rewrite tie_refl in H.
Qed.

(** Two sorted arrays in which the same elements tie in the same order
    are the same array. *)
Lemma sorted_stable_eq l1 l2 :
  StronglySorted (before cmp) l1 → StronglySorted (before cmp) l2 →
  (∀ x, List.filter (tie cmp x) l1 = List.filter (tie cmp x) l2) → l1 = l2.
Proof.
  intros H1. revert l2. induction H1 as [|a l1 Hl1 IH Ha]; intros l2 H2 Heq.
  { symmetry. apply tie_filter_nil. intros x. by rewrite <-Heq. }
  destruct H2 as [|b l2 Hl2 Hb].
  { apply tie_filter_nil. intros x. by rewrite Heq. }
  assert (a = b) as <-.
  { pose proof (Heq a) as Haa. pose proof (Heq b) as Hbb.
    cbn in Haa, Hbb. rewrite tie_refl in Haa, Hbb.
    rewrite (tie_sym b a) in Hbb.
    destruct (tie cmp a b) eqn:Hab; [congruence|].
    assert (In a l2) as Hin2.
    { eapply (proj1 (filter_In _ _ _)). rewrite <-Haa. by left. }
    assert (In b l1) as Hin1.
    { eapply (proj1 (filter_In _ _ _)). rewrite Hbb. by left. }
    rewrite List.Forall_forall in Ha, Hb.
    assert (cmp a b = 0) as Hz by (apply cmp_tie; auto).
    unfold tie in Hab. apply Z.eqb_neq in Hab. done. }
  f_equal. apply IH; [done|]. intros x. specialize (Heq x). cbn in Heq.
  destruct (tie cmp x a); congruence.
Qed.

(** [sort] computes the one sorted and stable rearrangement. *)
Lemma sort_unique l l' :
  StronglySorted (before cmp) l' →
  (∀ x, List.filter (tie cmp x) l' = List.filter (tie cmp x) l) →
  l' = sort cmp l.
Proof.
  intros Hs Heq. apply sorted_stable_eq; [done|apply sort_sorted|].
  intros x. by rewrite sort_stable.
Qed.

End SortFacts.

(** ** The comparator of the handler *)

Lemma comparator_before q a b : before (comparator q) a b ↔ goesBefore q a b.
Proof.
  unfold before, goesBefore, comparator, startsWithQuery, length.
  destruct (startsWith (userOf a) q), (startsWith (userOf b) q); simpl;
    intuition (try done; lia).
Qed.

Lemma comparator_total q a b :
  before (comparator q) a b ∨ before (comparator q) b a.
Proof.
  unfold before, comparator, length.
  destruct (startsWith (userOf a) q), (startsWith (userOf b) q); simpl; lia.
Qed.

Lemma comparator_trans q a b c :
  before (comparator q) a b → before (comparator q) b c → before (comparator q) a c.
Proof.
  unfold before, comparator, length.
  destruct (startsWith (userOf a) q), (startsWith (userOf b) q),
    (startsWith (userOf c) q); simpl; lia.
Qed.

Lemma comparator_tie q a b :
  comparator q a b = 0 ↔ before (comparator q) a b ∧ before (comparator q) b a.
Proof.
  unfold before, comparator, length.
  destruct (startsWith (userOf a) q), (startsWith (userOf b) q); simpl; lia.
Qed.

(** Two records tie when both or neither start with the query and their
    usernames are equally long. *)
Lemma comparator_tie_spec q a b :
  tie (comparator q) a b = true ↔
  startsWithQuery q a = startsWithQuery q b ∧
  String.length (userOf a) = String.length (userOf b).
Proof.
  unfold tie, comparator, startsWithQuery, length. rewrite Z.eqb_eq.
  destruct (startsWith (userOf a) q), (startsWith (userOf b) q); simpl;
    intuition (try done; lia).
Qed.

(** The facts about [sort] at the comparator of the handler. *)
Lemma sort_comparator_sorted q l :
  StronglySorted (before (comparator q)) (sort (comparator q) l).
Proof.
  apply sort_sorted; [apply comparator_total|apply comparator_trans].
Qed.

Lemma sort_comparator_idempotent q l :
  sort (comparator q) (sort (comparator q) l) = sort (comparator q) l.
Proof.
  apply sort_idempotent; [apply comparator_total|apply comparator_trans].
Qed.

Lemma sort_comparator_stable q x l :
  List.filter (tie (comparator q) x) (sort (comparator q) l) =
  List.filter (tie (comparator q) x) l.
Proof.
  apply sort_stable; [apply comparator_trans|apply comparator_tie].
Qed.

(** ** The ranking *)

Lemma notExact_negb q item : notExact q item = negb (isExact q item).
Proof. done. Qed.

Lemma findIndex_None {A} (p : A → bool) l :
  findIndex p l = None ↔ List.filter p l = [].
Proof.
  induction l as [|x l IH]; simpl; [done|].
  destruct (p x); [done|]. rewrite <-IH. by destruct (findIndex p l).
Qed.

(** [exactMatches[0]] is the element at the index [findIndex] found. *)
Lemma exact_head {A} (p : A → bool) l i :
  findIndex p l = Some i →
  ∃ first, l !! i = Some first ∧ List.find p l = Some first ∧
           head (List.filter p l) = Some first.
Proof.
  revert i. induction l as [|x l IH]; intros i; simpl; [done|].
  destruct (p x) eqn:Hx.
  - intros [= <-]. by exists x.
  - destruct (findIndex p l) as [j|]; [|done]. intros [= <-].
    destruct (IH j eq_refl) as (first & ? & ? & ?). by exists first.
Qed.

Lemma find_filter_head {A} (p : A → bool) l : List.find p l = head (List.filter p l).
Proof.
  induction l as [|x l IH]; simpl; [done|]. by destruct (p x).
Qed.

Lemma rank_pinned q fullData first :
  List.find (isExact q) fullData = Some first →
  rank q fullData = first :: sort (comparator q) (List.filter (notExact q) fullData).
Proof.
  rewrite find_filter_head. unfold rank. intros Hhead.
  destruct (findIndex (isExact q) fullData) eqn:Hidx.
  - by destruct (List.filter (isExact q) fullData); simplify_eq/=.
  - apply findIndex_None in Hidx. by rewrite Hidx in Hhead.
Qed.

Lemma filter_none {A} (p : A → bool) l :
  List.filter p l = [] → List.filter (λ x, negb (p x)) l = l.
Proof.
  induction l as [|x l IH]; simpl; [done|].
  destruct (p x); simpl; [done|]. intros H. by rewrite IH.
Qed.

Lemma rank_unpinned q fullData :
  List.find (isExact q) fullData = None →
  rank q fullData = sort (comparator q) fullData.
Proof.
  rewrite find_filter_head. unfold rank. intros Hhead.
  destruct (findIndex (isExact q) fullData) eqn:Hidx; [|done].
  destruct (exact_head _ _ _ Hidx) as (first & _ & _ & Hfirst). congruence.
Qed.

(** In both branches: the first exact match, if any, and then the sorted
    records that are not exact matches. *)
Lemma rank_eq q fullData :
  rank q fullData =
  take 1 (List.filter (isExact q) fullData)
    ++ sort (comparator q) (List.filter (notExact q) fullData).
Proof.
  destruct (List.find (isExact q) fullData) as [first|] eqn:Hfind.
  - rewrite (rank_pinned _ _ _ Hfind). rewrite find_filter_head in Hfind.
    by destruct (List.filter (isExact q) fullData); simplify_eq/=.
  - rewrite (rank_unpinned _ _ Hfind). rewrite find_filter_head in Hfind.
    destruct (List.filter (isExact q) fullData) eqn:Hex; [|done].
    unfold notExact. by rewrite (filter_none (isExact q)).
Qed.

Lemma filter_partition_perm {A} (p : A → bool) l :
  Permutation (List.filter p l ++ List.filter (λ x, negb (p x)) l) l.
Proof.
  induction l as [|x l IH]; simpl; [done|].
  destruct (p x); simpl.
  - by constructor.
  - rewrite <-Permutation_middle. by constructor.
Qed.

Lemma rank_perm_kept q fullData :
  Permutation (rank q fullData)
    (take 1 (List.filter (isExact q) fullData) ++ List.filter (notExact q) fullData).
Proof. rewrite rank_eq. by rewrite sort_perm. Qed.

Lemma rank_submseteq q fullData : rank q fullData ⊆+ fullData.
Proof.
  trans (take 1 (List.filter (isExact q) fullData)
           ++ List.filter (notExact q) fullData);
    [apply Permutation_submseteq, rank_perm_kept|].
  trans (List.filter (isExact q) fullData ++ List.filter (notExact q) fullData);
    [|apply Permutation_submseteq, filter_partition_perm].
  apply submseteq_app; [|done]. apply sublist_submseteq, sublist_take.
Qed.

Lemma rank_length_le q fullData :
  (List.length (rank q fullData) ≤ List.length fullData)%nat.
Proof. apply submseteq_length, rank_submseteq. Qed.

Lemma filter_Forall_id {A} (p : A → bool) l :
  Forall (λ x, p x = true) l → List.filter p l = l.
Proof.
  induction 1 as [|x l Hx _ IH]; simpl; [done|]. by rewrite Hx, IH.
Qed.

Lemma filter_Forall_nil {A} (p : A → bool) l :
  Forall (λ x, p x = false) l → List.filter p l = [].
Proof.
  induction 1 as [|x l Hx _ IH]; simpl; [done|]. by rewrite Hx.
Qed.

Lemma filter_Forall {A} (p : A → bool) l :
  Forall (λ x, p x = true) (List.filter p l).
Proof. apply List.Forall_forall. intros x Hx. by apply filter_In in Hx as [_ ?]. Qed.

Lemma sorted_rest_notExact q fullData :
  Forall (λ x, notExact q x = true)
    (sort (comparator q) (List.filter (notExact q) fullData)).
Proof.
  eapply Permutation_Forall; [symmetry; apply sort_perm|]. apply filter_Forall.
Qed.

Lemma find_none_Forall {A} (p : A → bool) l :
  List.find p l = None ↔ Forall (λ x, p x = false) l.
Proof.
  induction l as [|x l IH]; simpl; [by split; [constructor|]|].
  destruct (p x) eqn:Hx.
  - split; [done|]. inversion 1; congruence.
  - rewrite IH. split; [by constructor|by inversion 1].
Qed.

(** Ranking a ranked array again gives the same array. *)
Lemma rank_idempotent q fullData : rank q (rank q fullData) = rank q fullData.
Proof.
  destruct (List.find (isExact q) fullData) as [first|] eqn:Hfind.
  - rewrite (rank_pinned _ _ _ Hfind).
    pose proof (sorted_rest_notExact q fullData) as Hrest.
    apply find_some in Hfind as [_ Hfirst].
    rewrite (rank_pinned q _ first) by (simpl; by rewrite Hfirst).
    cbn [List.filter]. rewrite notExact_negb, Hfirst. cbn [negb].
    rewrite (filter_Forall_id _ _ Hrest).
    by rewrite sort_comparator_idempotent.
  - rewrite (rank_unpinned _ _ Hfind).
    rewrite rank_unpinned.
    + apply sort_comparator_idempotent.
    + apply find_none_Forall. eapply Permutation_Forall; [symmetry; apply sort_perm|].
      by apply find_none_Forall.
Qed.

Lemma prefix_same_length q s :
  String.prefix q s = true → String.length s = String.length q → s = q.
Proof.
  revert s. induction q as [|c q IH]; intros [|d s]; simpl; try done.
  destruct (Ascii.ascii_dec c d) as [->|]; [|done].
  intros Hp [= Hl]. f_equal. by apply IH.
Qed.

Lemma prefix_refl q : String.prefix q q = true.
Proof.
  induction q as [|c q IH]; simpl; [done|].
  by destruct (Ascii.ascii_dec c c).
Qed.

(** The records that tie with an exact match are the exact matches. *)
Lemma tie_exact q x :
  isExact q x = true → ∀ y, tie (comparator q) x y = isExact q y.
Proof.
  unfold isExact. intros Hx%String.eqb_eq y.
  apply eq_true_iff_eq. rewrite comparator_tie_spec.
  unfold startsWithQuery, startsWith. rewrite Hx, prefix_refl, String.eqb_eq.
  split.
  - intros [Hp Hl]. by apply prefix_same_length.
  - intros ->. by rewrite prefix_refl.
Qed.

Lemma tie_notExact q x y :
  isExact q x = false → tie (comparator q) x y = true → isExact q y = false.
Proof.
  intros Hx Hxy. destruct (isExact q y) eqn:Hy; [|done].
  rewrite (tie_sym _ (comparator_tie q)), (tie_exact _ _ Hy) in Hxy. congruence.
Qed.

(** Stability of the ranking: the records that tie with [x] come out in
    the order they came in, all of them unless [x] is an exact match, of
    which only the first is kept. *)
Lemma rank_stable q fullData x :
  List.filter (tie (comparator q) x) (rank q fullData) =
  if isExact q x then take 1 (List.filter (tie (comparator q) x) fullData)
  else List.filter (tie (comparator q) x) fullData.
Proof.
  rewrite rank_eq, List.filter_app.
  rewrite sort_comparator_stable.
  destruct (isExact q x) eqn:Hx.
  - rewrite !(filter_ext _ _ (tie_exact q x Hx)).
    rewrite (filter_Forall_nil (isExact q) (List.filter (notExact q) fullData)).
    + rewrite app_nil_r. apply filter_Forall_id.
      eapply Forall_take, filter_Forall.
    + eapply Forall_impl; [apply filter_Forall|].
      intros y. unfold notExact, isExact. by destruct (String.eqb _ _).
  - rewrite filter_Forall_nil.
    + simpl. induction fullData as [|y l IH]; simpl; [done|].
      rewrite notExact_negb.
      destruct (isExact q y) eqn:Hy; simpl.
      * destruct (tie (comparator q) x y) eqn:Hxy; [|done].
        pose proof (tie_notExact _ _ _ Hx Hxy). congruence.
      * by rewrite IH.
    + eapply Forall_take. eapply Forall_impl; [apply filter_Forall|].
      intros y Hy. simpl in Hy.
      destruct (tie (comparator q) x y) eqn:Hxy; [|done].
      pose proof (tie_notExact _ _ _ Hx Hxy). congruence.
Qed.

(** ** The ranking block writes fresh arrays only *)

Section ArrayFacts.

Import Arrays.

Lemma alloc_spec arr (h : Heap) :
  ∃ r, alloc arr h = (r, <[r := arr]> h) ∧ h !! r = None.
Proof.
  eexists. split; [done|]. apply not_elem_of_dom, is_fresh.
Qed.

Lemma read_spec r arr (h : Heap) : h !! r = Some arr → read r h = (arr, h).
Proof. intros H. unfold read. by rewrite H. Qed.

(** The block returns a new array that holds [rank q data], and every
    array there was before the block holds what it held. *)
Lemma rankBlock_spec q fullData data (h : Heap) :
  h !! fullData = Some data →
  ∃ r h', rankBlock q fullData h = (r, h') ∧
          h' !! r = Some (rank q data) ∧
          h !! r = None ∧
          ∀ r0, is_Some (h !! r0) → h' !! r0 = h !! r0.
Proof.
  intros Hdata. unfold rankBlock, rank, filter_, spread, cons_spread, sort_.
  unfold mbind, mret, Op_bind, Op_ret.
  rewrite (read_spec _ _ _ Hdata).
  destruct (findIndex (isExact q) data) as [i|].
  - rewrite (read_spec _ _ _ Hdata).
    destruct (alloc_spec (List.filter (isExact q) data) h) as (r1 & -> & Hr1).
    set (h1 := <[r1 := _]> h).
    assert (h1 !! fullData = Some data) as Hdata1.
    { unfold h1. rewrite lookup_insert_ne; [done|congruence]. }
    rewrite (read_spec _ _ _ Hdata1).
    destruct (alloc_spec (List.filter (notExact q) data) h1) as (r2 & -> & Hr2).
    set (h2 := alter _ r2 _).
    assert (r1 ≠ r2) as Hne.
    { intros <-. unfold h1 in Hr2. by rewrite lookup_insert_eq in Hr2. }
    assert (h2 !! r1 = Some (List.filter (isExact q) data)) as H1.
    { unfold h2, h1. rewrite lookup_alter_ne, lookup_insert_ne by done.
      by rewrite lookup_insert_eq. }
    assert (h2 !! r2 = Some (sort (comparator q) (List.filter (notExact q) data))) as H2.
    { unfold h2. by rewrite lookup_alter_eq, lookup_insert_eq. }
    rewrite (read_spec _ _ _ H1), (read_spec _ _ _ H2).
    destruct (alloc_spec
      match List.filter (isExact q) data with
      | [] => sort (comparator q) (List.filter (notExact q) data)
      | first :: _ => first :: sort (comparator q) (List.filter (notExact q) data)
      end h2) as (r3 & -> & Hr3).
    assert (h !! r3 = None) as Hr3'.
    { destruct (decide (r3 = r2)) as [->|]; [congruence|].
      destruct (decide (r3 = r1)) as [->|]; [congruence|].
      unfold h2, h1 in Hr3.
      by rewrite lookup_alter_ne, !lookup_insert_ne in Hr3. }
    exists r3. eexists. split; [done|]. rewrite lookup_insert_eq.
    split; [by destruct (List.filter (isExact q) data)|]. split; [done|].
    intros r0 [arr Hr0].
    assert (r0 ≠ r3 ∧ r0 ≠ r2 ∧ r0 ≠ r1) as (? & ? & ?).
    { repeat split; intros ->; try congruence.
      unfold h1 in Hr2. rewrite lookup_insert_ne in Hr2; congruence. }
    unfold h2, h1. by rewrite lookup_insert_ne, lookup_alter_ne, !lookup_insert_ne.
  - rewrite (read_spec _ _ _ Hdata).
    destruct (alloc_spec data h) as (r1 & -> & Hr1).
    exists r1. eexists. split; [done|].
    rewrite lookup_alter_eq, lookup_insert_eq. split; [done|]. split; [done|].
    intros r0 [arr Hr0]. assert (r0 ≠ r1) by congruence.
    by rewrite lookup_alter_ne, lookup_insert_ne.
Qed.

End ArrayFacts.

(** ** Numbers *)

Lemma nearest_small n : 0 ≤ n < 2 ^ 53 → nearest n = n.
Proof.
  intros [H0 H1]. unfold nearest.
  destruct (Z.leb_spec (Z.log2 n + 1) 53) as [|Hbits]; [done|].
  exfalso. destruct (decide (n = 0)) as [->|]; [done|].
  pose proof (Z.log2_lt_pow2 n 53 ltac:(lia)) as [Hlog _]. specialize (Hlog H1). lia.
Qed.

Lemma nearest_large n : 2 ^ 53 ≤ n → 2 ^ 53 ≤ nearest n.
Proof.
  intros Hn. unfold nearest.
  pose proof (Z.log2_le_pow2 n 53 ltac:(lia)) as [Hlog _]. specialize (Hlog Hn).
  destruct (Z.leb_spec (Z.log2 n + 1) 53) as [|_]; [lia|].
  set (shift := Z.log2 n + 1 - 53).
  assert (1 ≤ shift) as Hshift by (unfold shift; lia).
  set (q := Z.shiftr n shift).
  assert (2 ^ 52 ≤ q) as Hq.
  { unfold q. rewrite Z.shiftr_div_pow2 by lia.
    apply Z.div_le_lower_bound; [apply Z.pow_pos_nonneg; lia|].
    rewrite Z.mul_comm, <-Z.pow_add_r by lia.
    replace (52 + shift) with (Z.log2 n) by (unfold shift; lia).
    apply Z.log2_spec. lia. }
  match goal with |- _ ≤ Z.shiftl ?q' _ => assert (2 ^ 52 ≤ q') as Hq' end.
  { case_match; lia. }
  rewrite Z.shiftl_mul_pow2 by lia.
  assert (2 ^ 1 ≤ 2 ^ shift) by (apply Z.pow_le_mono_r; lia).
  change (2 ^ 53) with (2 ^ 52 * 2 ^ 1). nia.
Qed.

Lemma nearest_exact n : 0 ≤ n ≤ 2 ^ 53 → nearest n = n.
Proof.
  intros [H0 H1]. destruct (decide (n = 2 ^ 53)) as [->|]; [by vm_compute|].
  apply nearest_small. lia.
Qed.

(** [toNumber] is exact up to [2 ^ 53] and never comes back below it. *)
Lemma toNumber_exact z : - 2 ^ 53 ≤ z ≤ 2 ^ 53 → toNumber z = Finite z.
Proof.
  intros Hz. unfold toNumber. rewrite nearest_exact by lia.
  destruct (Z.leb_spec (2 ^ 1024) (Z.abs z)) as [Hbig|_].
  - assert (2 ^ 53 < 2 ^ 1024) by (apply Z.pow_lt_mono_r; lia). lia.
  - f_equal. destruct z; cbn [Z.sgn Z.abs]; lia.
Qed.

Lemma toNumber_large z :
  2 ^ 53 ≤ z → toNumber z = Infinity ∨ ∃ m, toNumber z = Finite m ∧ 2 ^ 53 ≤ m.
Proof.
  intros Hz. unfold toNumber.
  assert (0 < 2 ^ 53) by (apply Z.pow_pos_nonneg; lia).
  pose proof (nearest_large (Z.abs z) ltac:(lia)) as Hm.
  destruct (Z.leb_spec (2 ^ 1024) (nearest (Z.abs z))).
  - left. destruct (Z.ltb_spec z 0); [lia|done].
  - right. eexists. split; [done|]. rewrite Z.sgn_pos by lia. lia.
Qed.

Lemma toNumber_large_neg z :
  z ≤ - 2 ^ 53 → toNumber z = NegInfinity ∨ ∃ m, toNumber z = Finite m ∧ m ≤ - 2 ^ 53.
Proof.
  intros Hz. unfold toNumber.
  assert (0 < 2 ^ 53) by (apply Z.pow_pos_nonneg; lia).
  pose proof (nearest_large (Z.abs z) ltac:(lia)) as Hm.
  destruct (Z.leb_spec (2 ^ 1024) (nearest (Z.abs z))).
  - left. destruct (Z.ltb_spec z 0); [done|lia].
  - right. eexists. split; [done|]. rewrite Z.sgn_neg by lia. lia.
Qed.

Lemma toNumber_not_NaN z : isNaN (toNumber z) = false.
Proof. unfold toNumber. by repeat case_match. Qed.

Ltac ltb_cases :=
  repeat match goal with
  | |- context [?a <? ?b] => destruct (Z.ltb_spec a b)
  end; try done; try lia; try (exfalso; lia).

(** Comparing with a small integer sees through the rounding. *)
Lemma lt_toNumber z k :
  - 2 ^ 53 < k ≤ 2 ^ 53 → lt (toNumber z) (Finite k) = (z <? k).
Proof.
  intros Hk.
  destruct (decide (z < - 2 ^ 53)) as [Hneg|?];
    [|destruct (decide (2 ^ 53 < z)) as [Hpos|?]].
  - destruct (toNumber_large_neg z ltac:(lia)) as [->|(m & -> & Hm)]; cbn [lt]; ltb_cases.
  - destruct (toNumber_large z ltac:(lia)) as [->|(m & -> & Hm)]; cbn [lt]; ltb_cases.
  - by rewrite toNumber_exact by lia.
Qed.

Lemma gt_toNumber z k :
  - 2 ^ 53 ≤ k < 2 ^ 53 → gt (toNumber z) (Finite k) = (k <? z).
Proof.
  intros Hk. unfold gt.
  destruct (decide (z < - 2 ^ 53)) as [Hneg|?];
    [|destruct (decide (2 ^ 53 < z)) as [Hpos|?]].
  - destruct (toNumber_large_neg z ltac:(lia)) as [->|(m & -> & Hm)]; cbn [lt]; ltb_cases.
  - destruct (toNumber_large z ltac:(lia)) as [->|(m & -> & Hm)]; cbn [lt]; ltb_cases.
  - by rewrite toNumber_exact by lia.
Qed.

Lemma sub_one p : - 2 ^ 53 < p ≤ 2 ^ 53 → (Finite p - 1)%num = Finite (p - 1).
Proof.
  intros Hp. unfold sub, neg, add. cbn. rewrite toNumber_exact by lia. f_equal.
Qed.

(** ** Pagination *)

Lemma take_min {A} (l : list A) n :
  take (n `min` List.length l) l = take n l.
Proof.
  destruct (decide (n ≤ List.length l)%nat).
  - by rewrite Nat.min_l.
  - rewrite Nat.min_r by lia. rewrite !take_ge; [done|lia|lia].
Qed.

(** The index of a bound that is not negative: rounding it makes no
    difference, an array being shorter than [2 ^ 53]. *)
Lemma relativeIndex_toNumber len x :
  0 ≤ len < 2 ^ 53 → 0 ≤ x → relativeIndex len (toNumber x) = Z.min x len.
Proof.
  intros Hlen Hx. unfold relativeIndex.
  destruct (decide (x ≤ 2 ^ 53)).
  - rewrite toNumber_exact by lia. cbn. destruct (Z.ltb_spec x 0); [lia|done].
  - destruct (toNumber_large x ltac:(lia)) as [->|(m & -> & Hm)]; cbn; [lia|].
    destruct (Z.ltb_spec m 0); lia.
Qed.

Lemma relativeIndex_end len x s :
  0 ≤ len < 2 ^ 53 → 0 ≤ x → 0 ≤ s →
  relativeIndex len (toNumber x + Finite s)%num = Z.min (x + s) len.
Proof.
  intros Hlen Hx Hs.
  destruct (decide (x ≤ 2 ^ 53)).
  - rewrite toNumber_exact by lia. cbn [add]. apply relativeIndex_toNumber; lia.
  - destruct (toNumber_large x ltac:(lia)) as [->|(m & -> & Hm)]; cbn [add].
    + cbn. lia.
    + rewrite relativeIndex_toNumber by lia. lia.
Qed.

Lemma lengthOfArrayLike_bounds {A} (arr : list A) :
  0 ≤ lengthOfArrayLike arr < 2 ^ 53.
Proof. unfold lengthOfArrayLike. assert (0 < 2 ^ 53) by (apply Z.pow_pos_nonneg; lia). lia. Qed.

(** A page of a finite size is the slice that exact arithmetic gives, of
    the elements that [slice] reaches. *)
Lemma paginate_finite orderedData p s :
  1 ≤ p ≤ 2 ^ 53 → 0 ≤ s →
  paginate orderedData (Finite p) (Finite s) =
  take (Z.to_nat s)
    (drop (Z.to_nat ((p - 1) * s)) (take (Z.to_nat (2 ^ 53 - 1)) orderedData)).
Proof.
  intros Hp Hs. unfold paginate, slice. rewrite sub_one by lia. cbn [mul].
  pose proof (lengthOfArrayLike_bounds orderedData) as Hlen.
  rewrite relativeIndex_end, relativeIndex_toNumber by nia.
  set (x := (p - 1) * s). assert (0 ≤ x) by nia.
  unfold lengthOfArrayLike in *. set (M := 2 ^ 53 - 1) in *.
  set (len := Z.of_nat (List.length orderedData)) in *.
  apply list_eq. intros i.
  destruct (decide (Z.of_nat i < s ∧ x + Z.of_nat i < Z.min len M)) as [[H1 H2]|Hout].
  - rewrite !lookup_take_lt, !lookup_drop, lookup_take_lt by lia.
    f_equal. lia.
  - destruct (decide (Z.of_nat i < Z.min (x + s) (Z.min len M) - Z.min x (Z.min len M))).
    + exfalso. lia.
    + rewrite lookup_take_ge by lia.
      destruct (decide (Z.of_nat i < s)).
      * rewrite lookup_take_lt, lookup_drop by lia.
        destruct (decide (x + Z.of_nat i < M)).
        -- rewrite lookup_take_lt by lia. symmetry. apply lookup_ge_None. unfold len in *. lia.
        -- by rewrite lookup_take_ge by lia.
      * by rewrite lookup_take_ge by lia.
Qed.

(** When the size is [Infinity] the bounds are [NaN] on page 1 and
    [Infinity] on the next ones, and the slice is empty. *)
Lemma paginate_infinite orderedData p :
  1 ≤ p ≤ 2 ^ 53 → paginate orderedData (Finite p) Infinity = [].
Proof.
  intros Hp. unfold paginate, slice. rewrite sub_one by lia.
  destruct (decide (p = 1)) as [->|].
  - change (Finite (1 - 1) * Infinity)%num with NaN.
    change (NaN + Infinity)%num with NaN. unfold relativeIndex. cbn. 
    by rewrite Z.sub_diag.
  - assert (mul (Finite (p - 1)) Infinity = Infinity) as ->.
    { unfold mul. cbn [sign]. rewrite Z.sgn_pos by lia. done. }
    change (Infinity + Infinity)%num with Infinity. unfold relativeIndex. cbn.
    by rewrite Z.sub_diag.
Qed.

(** Without rounding, when the array is as short as every array is. *)
Lemma paginate_take_drop orderedData p s :
  1 ≤ p ≤ 2 ^ 53 → 0 ≤ s → Z.of_nat (List.length orderedData) < 2 ^ 53 →
  paginate orderedData (Finite p) (Finite s) =
  take (Z.to_nat s) (drop (Z.to_nat ((p - 1) * s)) orderedData).
Proof.
  intros Hp Hs Hlen. rewrite paginate_finite by done.
  by rewrite (take_ge orderedData) by lia.
Qed.

Lemma pagesUpTo_concat orderedData s k :
  0 ≤ s → Z.of_nat (List.length orderedData) < 2 ^ 53 → Z.of_nat k ≤ 2 ^ 53 →
  concat (pagesUpTo orderedData (Finite s) k) = take (k * Z.to_nat s) orderedData.
Proof.
  intros Hs Hlen. unfold pagesUpTo. induction k as [|k IH]; [done|]. intros Hk.
  rewrite seq_S, List.map_app, concat_app, IH by lia. cbn [List.map concat].
  rewrite app_nil_r, paginate_take_drop by lia.
  replace (Z.to_nat ((Z.of_nat (1 + k) - 1) * s))
    with (k * Z.to_nat s)%nat by nia.
  rewrite take_take_drop. f_equal. lia.
Qed.

(** ** The validation block *)

Lemma validate_rejects req res :
  validate req = inl res → ∃ error, res = fail 400 error.
Proof.
  unfold validate. intros H.
  repeat case_match; simplify_eq; eauto.
Qed.

(** The Numbers the handler reads are the Number values of the integers
    the parameters stand for. *)
Lemma pageInt_requested req :
  pageInt req = from_option toNumber NaN (requestedPage req).
Proof. unfold pageInt, requestedPage, parseInt. by destruct (page req). Qed.

Lemma limitInt_requested req :
  limitInt req = from_option toNumber NaN (requestedLimit req).
Proof. unfold limitInt, requestedLimit, parseInt. by destruct (limit req). Qed.

Lemma small_bounds : - 2 ^ 53 < 1 ∧ 7 < 2 ^ 53.
Proof. split; by vm_compute. Qed.

Lemma validate_accepts req term pageNo size :
  validate req = inr (term, pageNo, size) →
  query req = Some term ∧ term ≠ "" ∧ term ≠ "*" ∧
  (∀ p, platform req = Some p → p ≠ "" → toLowerCase p = "instagram") ∧
  (∃ p, requestedPage req = Some p ∧ pageNo = Finite p ∧ 1 ≤ p ≤ MAX_PAGES) ∧
  (∃ l, requestedLimit req = Some l ∧ size = toNumber l ∧ 1 ≤ l).
Proof.
  unfold validate. intros H. pose proof small_bounds as [Hone Hseven].
  destruct (query req) as [term'|]; [|done].
  destruct (String.eqb_spec term' "") as [|Hne]; [done|].
  destruct (String.eqb_spec term' "*") as [|Hnw]; [done|]. cbn [orb] in H.
  destruct (truthy (platform req) &&
            negb (String.eqb (toLowerCase (default "" (platform req))) "instagram"))
    eqn:Hplat; [done|].
  rewrite pageInt_requested, limitInt_requested in H.
  destruct (requestedPage req) as [p|]; [|done].
  destruct (requestedLimit req) as [l|]; cbn [from_option] in H;
    rewrite ?toNumber_not_NaN in H; cbn [orb isNaN] in H.
  2: { rewrite lt_toNumber in H by lia. by destruct (p <? 1). }
  unfold MAX_PAGES in *.
  rewrite !lt_toNumber, gt_toNumber in H by lia.
  destruct (Z.ltb_spec p 1); [done|].
  destruct (Z.ltb_spec l 1); [done|].
  destruct (Z.ltb_spec 7 p); [done|].
  simplify_eq. repeat split; try done.
  - intros p' Hp Hpne. rewrite Hp in Hplat. cbn in Hplat.
    destruct (String.eqb_spec p' ""); [done|]. cbn in Hplat.
    by destruct (String.eqb_spec (toLowerCase p') "instagram").
  - exists p. rewrite toNumber_exact by lia. repeat split; try done; lia.
  - by exists l.
Qed.

Lemma invalid_validate req :
  InvalidParameters req → ∃ error, validate req = inl (fail 400 error).
Proof.
  intros Hinv. destruct (validate req) as [res|[[term pageNo] size]] eqn:Hv.
  { destruct (validate_rejects _ _ Hv) as [error ->]. eauto. }
  exfalso.
  apply validate_accepts in Hv
    as (Hq & Hne & Hnw & Hplat & (p & Hpage & -> & Hp) & (l & Hlimit & -> & Hl)).
  destruct Hinv as [Habs|Hwild|p' Hp1 Hp2 Hp3|Hbad|Hbad|k Hk Hgt].
  - rewrite Hq in Habs. cbn in Habs. by destruct (String.eqb_spec term "").
  - congruence.
  - by apply Hp3, Hplat.
  - apply Hbad. exists p. split; [done|lia].
  - apply Hbad. by exists l.
  - rewrite Hpage in Hk. simplify_eq. lia.
Qed.

(** ** The handler *)

Lemma handler_not_get req cache :
  method req ≠ "GET" →
  handler req cache = Respond (fail 405 "Method Not Allowed. Only GET is supported.").
Proof.
  intros Hm. unfold handler. by destruct (String.eqb_spec (method req) "GET").
Qed.

Lemma handler_get req cache :
  method req = "GET" →
  handler req cache =
  match validate req with
  | inl res => Respond res
  | inr (term, pageNo, size) =>
      match cache_get cache (toLowerCase term) with
      | Cached fullData => Respond (serve term pageNo size fullData)
      | Inherited => Respond (catch notAFunction)
      | Missing => fetch term (toLowerCase term) pageNo size
      end
  end.
Proof. intros Hm. unfold handler. by rewrite Hm. Qed.

Lemma cache_get_cached cache key fullData :
  cache_get cache key = Cached fullData ↔ cache !! key = Some fullData.
Proof.
  unfold cache_get. destruct (cache !! key); [|destruct (inheritedKey key)];
    split; intros; by simplify_eq.
Qed.

(** A request for a cached query is answered from the cache, in its first
    synchronous segment. *)
Lemma handler_cached req cache term fullData :
  query req = Some term → cache !! toLowerCase term = Some fullData →
  ∃ res, handler req cache = Respond res.
Proof.
  intros Hq Hc. unfold handler.
  destruct (negb _); [eauto|].
  destruct (validate req) as [res|[[term' pageNo] size]] eqn:Hv; [eauto|].
  apply validate_accepts in Hv as (Hq' & _). simplify_eq.
  apply cache_get_cached in Hc. rewrite Hc. eauto.
Qed.

(** ** One request on its own *)

Lemma serveRequest_respond apify req cache res :
  handler req cache = Respond res → serveRequest apify req cache = (res, cache, []).
Proof. unfold serveRequest. by intros ->. Qed.

(** The miss path of the handler against the DatasetFetcher of the
    specification: what is answered and what is written for each outcome
    of the fetch. *)
Lemma complete_fetch apify term pageNo size cache :
  let '(res, cache', asked) :=
    complete apify (fetch term (toLowerCase term) pageNo size) cache in
  invoked asked ∧
  (res, cache') =
  match datasetFetcher apify term (MAX_PAGES * size)%num with
  | Failed error => (catch error, cache)
  | NoResultSet =>
      (fail 502 "Apify actor did not return a valid dataset. Possibly a scraping failure.",
       cache)
  | EmptyResult => (fail 404 "No related profiles found.", cache)
  | Items fullData =>
      (serve term pageNo size fullData, <[toLowerCase term := fullData]> cache)
  end.
Proof.
  unfold fetch, datasetFetcher, invoked. cbn [complete].
  destruct (call apify _) as [[[[datasetId|]]|]|error]; cbn; try done.
  destruct (String.eqb_spec datasetId ""); cbn; try done.
  destruct (listItems apify _ _ _) as [[[[|item rest]|]]|error]; cbn; done.
Qed.

Lemma serveRequest_get apify req cache :
  method req = "GET" →
  serveRequest apify req cache =
  match validate req with
  | inl res => (res, cache, [])
  | inr (term, pageNo, size) =>
      match cache_get cache (toLowerCase term) with
      | Cached fullData => (serve term pageNo size fullData, cache, [])
      | Inherited => (catch notAFunction, cache, [])
      | Missing => complete apify (fetch term (toLowerCase term) pageNo size) cache
      end
  end.
Proof.
  intros Hm. unfold serveRequest. rewrite (handler_get _ _ Hm).
  destruct (validate req) as [res|[[term pageNo] size]]; [done|].
  by destruct (cache_get cache (toLowerCase term)).
Qed.

(** ** The server *)

(** What a segment of request [n] changes in the server. *)
Lemma advance_nextTicket n task s : nextTicket (advance n task s) = nextTicket s.
Proof.
  revert s. induction task as [res|key d next IH|input resume _|id l o resume _];
    intros s; cbn; [done| |done|done].
  by rewrite IH.
Qed.

Lemma advance_cached n task s key :
  is_Some (fullSearchCache s !! key) →
  is_Some (fullSearchCache (advance n task s) !! key).
Proof.
  revert s. induction task as [res|key' d next IH|input resume _|id l o resume _];
    intros s Hs; cbn; [done| |done|done].
  apply IH. cbn. destruct (decide (key' = key)) as [->|].
  - rewrite lookup_insert_eq. eauto.
  - by rewrite lookup_insert_ne.
Qed.

Lemma advance_suspended n task s m :
  m ≠ n → suspended (advance n task s) !! m = suspended s !! m.
Proof.
  revert s. induction task as [res|key d next IH|input resume _|id l o resume _];
    intros s Hm; cbn; [done| | |].
  - by rewrite IH.
  - by rewrite lookup_insert_ne.
  - by rewrite lookup_insert_ne.
Qed.

Lemma advance_invocations n task s :
  ∃ asked, invocations (advance n task s) = invocations s ++ asked ∧
           ∀ m inv, (m, inv) ∈ asked → m = n.
Proof.
  revert s. induction task as [res|key d next IH|input resume _|id l o resume _];
    intros s; cbn.
  - exists []. split; [by rewrite app_nil_r|]. by intros ?? ?%elem_of_nil.
  - destruct (IH {| fullSearchCache := <[key:=d]> (fullSearchCache s);
                    nextTicket := nextTicket s; suspended := suspended s;
                    invocations := invocations s; sent := sent s |})
      as (asked & -> & Hn). by exists asked.
  - eexists. split; [done|]. by intros ?? [= -> _]%list_elem_of_singleton.
  - eexists. split; [done|]. by intros ?? [= -> _]%list_elem_of_singleton.
Qed.

Lemma advance_respond n res s :
  advance n (Respond res) s =
  {| fullSearchCache := fullSearchCache s; nextTicket := nextTicket s;
     suspended := suspended s; invocations := invocations s;
     sent := sent s ++ [(n, res)] |}.
Proof. done. Qed.

Lemma step_cached s ev key :
  is_Some (fullSearchCache s !! key) →
  is_Some (fullSearchCache (step s ev) !! key).
Proof.
  intros Hs. destruct ev as [req|n called|n listed]; cbn.
  - by apply advance_cached.
  - destruct (suspended s !! n) as [[]|]; try done. by apply advance_cached.
  - destruct (suspended s !! n) as [[]|]; try done. by apply advance_cached.
Qed.

(** No entry of the cache is ever removed. *)
Lemma run_cached s evs key :
  is_Some (fullSearchCache s !! key) →
  is_Some (fullSearchCache (run s evs) !! key).
Proof.
  revert s. induction evs as [|ev evs IH]; intros s Hs; [done|].
  cbn. by apply IH, step_cached.
Qed.

Lemma run_app s evs1 evs2 : run s (evs1 ++ evs2) = run (run s evs1) evs2.
Proof. apply foldl_app. Qed.

Lemma advance_issued n task s :
  (n < nextTicket s)%nat → issued s → issued (advance n task s).
Proof.
  intros Hn [Hsus Hinv]. split.
  - intros m task' Hm. rewrite advance_nextTicket.
    destruct (decide (m = n)) as [->|Hne]; [done|].
    rewrite advance_suspended in Hm by done. eauto.
  - intros m inv Hm. rewrite advance_nextTicket.
    destruct (advance_invocations n task s) as (asked & Heq & Hasked).
    rewrite Heq in Hm. apply elem_of_app in Hm as [Hm|Hm]; [eauto|].
    by rewrite (Hasked _ _ Hm).
Qed.

Lemma issue_ticket_issued s : issued s → issued (issue_ticket s).
Proof.
  intros [Hsus Hinv]. split; cbn; intros n x Hx.
  - apply Hsus in Hx. lia.
  - apply Hinv in Hx. lia.
Qed.

Lemma wake_issued n s : issued s → issued (wake n s).
Proof.
  intros [Hsus Hinv]. split; cbn; [|done].
  intros m task [_ Hm]%lookup_delete_Some. eauto.
Qed.

Lemma step_issued s ev : issued s → issued (step s ev).
Proof.
  intros Hs. destruct ev as [req|n called|n listed]; cbn.
  - apply advance_issued; [cbn; lia|by apply issue_ticket_issued].
  - destruct (suspended s !! n) as [[]|] eqn:Hn; try done.
    apply advance_issued; [|by apply wake_issued].
    cbn. by eapply (proj1 Hs).
  - destruct (suspended s !! n) as [[]|] eqn:Hn; try done.
    apply advance_issued; [|by apply wake_issued].
    cbn. by eapply (proj1 Hs).
Qed.

Lemma boot_issued : issued boot.
Proof. split; cbn; intros n x Hx; [done|by apply elem_of_nil in Hx]. Qed.

Lemma run_issued s evs : issued s → issued (run s evs).
Proof.
  revert s. induction evs as [|ev evs IH]; intros s Hs; [done|].
  cbn. by apply IH, step_issued.
Qed.

Lemma advance_silent n m task s :
  m ≠ n → silent n s → silent n (advance m task s).
Proof.
  intros Hne (Hlt & Hsus & Hinv). split; [|split].
  - by rewrite advance_nextTicket.
  - by rewrite advance_suspended.
  - intros inv Hin.
    destruct (advance_invocations m task s) as (asked & Heq & Hasked).
    rewrite Heq in Hin. apply elem_of_app in Hin as [Hin|Hin].
    + by eapply Hinv.
    + apply Hasked in Hin. done.
Qed.

(** A request that is over stays over, whatever happens next. *)
Lemma step_silent n s ev : silent n s → silent n (step s ev).
Proof.
  intros Hs. destruct ev as [req|m called|m listed]; cbn.
  - destruct Hs as (Hlt & Hsus & Hinv).
    apply advance_silent; [lia|]. split; [cbn; lia|done].
  - destruct (suspended s !! m) as [[]|] eqn:Hm; try done.
    destruct Hs as (Hlt & Hsus & Hinv).
    apply advance_silent; [congruence|].
    split; [done|]. split; [cbn; by apply lookup_delete_None; right|done].
  - destruct (suspended s !! m) as [[]|] eqn:Hm; try done.
    destruct Hs as (Hlt & Hsus & Hinv).
    apply advance_silent; [congruence|].
    split; [done|]. split; [cbn; by apply lookup_delete_None; right|done].
Qed.

Lemma run_silent n s evs : silent n s → silent n (run s evs).
Proof.
  revert s. induction evs as [|ev evs IH]; intros s Hs; [done|].
  cbn. by apply IH, step_silent.
Qed.

(** A request that is answered on arrival is over at once. *)
Lemma arrive_silent s req res :
  issued s → handler req (fullSearchCache s) = Respond res →
  silent (nextTicket s) (step s (Arrive req)) ∧
  sent (step s (Arrive req)) = sent s ++ [(nextTicket s, res)] ∧
  fullSearchCache (step s (Arrive req)) = fullSearchCache s.
Proof.
  intros [Hsus Hinv] Hres. cbn. rewrite Hres. cbn. split; [|done].
  split; [cbn; lia|]. split; cbn.
  - destruct (suspended s !! nextTicket s) eqn:Hn; [|done].
    apply Hsus in Hn. lia.
  - intros inv Hin. apply Hinv in Hin. lia.
Qed.

(** ** What gets into the cache *)








(** ** Responses *)

Lemma truthy_absent o : truthy o = false ↔ absent o.
Proof.
  unfold absent. destruct o as [s|]; cbn; [|by split; auto].
  destruct (String.eqb_spec s "") as [->|Hne]; cbn.
  - split; auto.
  - split; [done|]. by intros [?|[= ?]].
Qed.

Lemma truthy_not_absent o : truthy o = true ↔ ¬ absent o.
Proof. rewrite <-truthy_absent. by destruct (truthy o). Qed.

Lemma catch_status error :
  status (catch error) =
  if messageIncludes error "TIMEOUT" then 504
  else if messageIncludes error "invalid token" then 401 else 500.
Proof. unfold catch. by repeat case_match. Qed.

Lemma catch_not_200 error : status (catch error) ≠ 200.
Proof. rewrite catch_status. by repeat case_match. Qed.

Lemma serve_cases term pageNo size fullData :
  let paginatedItems := paginate (rank (toLowerCase term) fullData) pageNo size in
  (paginatedItems = [] ∧
   serve term pageNo size fullData =
   fail 404 ("No related profiles found for page " +:+ toString pageNo +:+ ".")) ∨
  (paginatedItems ≠ [] ∧
   serve term pageNo size fullData =
   {| status := 200;
      body := PageBody (List.map project paginatedItems)
                (Z.of_nat (List.length fullData)) pageNo MAX_PAGES |}).
Proof.
  cbn. unfold serve.
  destruct (paginate (rank (toLowerCase term) fullData) pageNo size); cbn; eauto.
Qed.


(** A miss begins with the call of the actor. *)
Lemma complete_fetch_asked apify term key pageNo size cache :
  ∃ rest,
    (complete apify (fetch term key pageNo size) cache).2
    = Called (actorInput term (MAX_PAGES * size)%num) :: rest.
Proof.
  unfold fetch. cbn [complete].
  destruct (complete apify _ cache) as [[res cache'] rest]. by exists rest.
Qed.

Lemma serve_status term pageNo size fullData :
  status (serve term pageNo size fullData) =
  if bool_decide (paginate (rank (toLowerCase term) fullData) pageNo size = [])
  then 404 else 200.
Proof.
  destruct (serve_cases term pageNo size fullData) as [[Hnil ->]|[Hne ->]]; cbn.
  - by rewrite bool_decide_eq_true_2.
  - by rewrite bool_decide_eq_false_2.
Qed.

(** A response that was sent stays sent. *)
Lemma advance_sent n task s x : x ∈ sent s → x ∈ sent (advance n task s).
Proof.
  revert s. induction task as [res|key d next IH|input resume _|id l o resume _];
    intros s Hx; cbn; [|by apply IH|done|done].
  apply elem_of_app. by left.
Qed.

Lemma step_sent s ev x : x ∈ sent s → x ∈ sent (step s ev).
Proof.
  intros Hx. destruct ev as [req|n called|n listed]; cbn.
  - by apply advance_sent.
  - destruct (suspended s !! n) as [[]|]; try done. by apply advance_sent.
  - destruct (suspended s !! n) as [[]|]; try done. by apply advance_sent.
Qed.

Lemma run_sent s evs x : x ∈ sent s → x ∈ sent (run s evs).
Proof.
  revert s. induction evs as [|ev evs IH]; intros s Hx; [done|].
  cbn. by apply IH, step_sent.
Qed.

(** * The claims of the specification *)

(** ** Ranking *)

(** C1, as the specification states it, fails: of two records whose
    username equals the query, here "Alice" and "alice" for the query
    "alice", the ranking keeps the first and removes the other, so its
    result is not a permutation of its input. *)
Lemma rank_removes_second_exact_match :
  rank "alice" [named "alice_w"; named "Alice"; named "alice"]
    = [named "Alice"; named "alice_w"] ∧
  ¬ Permutation
      (rank "alice" [named "alice_w"; named "Alice"; named "alice"])
      [named "alice_w"; named "Alice"; named "alice"].
Proof.
  split; [by vm_compute|].
  intros H%Permutation_length. vm_compute in H. discriminate.
Qed.

Lemma sorted_goesBefore q l :
  StronglySorted (goesBefore q) (sort (comparator q) l).
Proof.
  pose proof (sort_comparator_sorted q l) as H.
  induction H as [|x rest Hrest IH Hx]; constructor; [done|].
  eapply Forall_impl; [exact Hx|]. intros y. apply comparator_before.
Qed.

(** C1, amended.  For every dataset and every query the ranking returns the
    first record whose username equals the normalized query, when there is
    one, followed by the records whose username does not equal it, sorted:
    a username that starts with the query goes before one that does not,
    and in the same group a shorter username goes before a longer one.  No
    record is added, and the result is a permutation of the input when at
    most one record's username equals the normalized query; the exact
    matches beyond the pinned first one are removed. *)
Theorem rank_keeps_first_exact_match q fullData :
  rank q fullData =
    take 1 (List.filter (isExact q) fullData)
    ++ sort (comparator q) (List.filter (notExact q) fullData) ∧
  head (rank q fullData) =
    match List.find (isExact q) fullData with
    | Some first => Some first
    | None => head (sort (comparator q) fullData)
    end ∧
  StronglySorted (goesBefore q) (sort (comparator q) (List.filter (notExact q) fullData)) ∧
  Permutation (sort (comparator q) (List.filter (notExact q) fullData))
    (List.filter (notExact q) fullData) ∧
  Permutation (rank q fullData)
    (take 1 (List.filter (isExact q) fullData) ++ List.filter (notExact q) fullData) ∧
  rank q fullData ⊆+ fullData ∧
  ((List.length (List.filter (isExact q) fullData) ≤ 1)%nat →
   Permutation (rank q fullData) fullData).
Proof.
  pose proof (rank_perm_kept q fullData) as Hkept.
  pose proof (filter_partition_perm (isExact q) fullData) as Hall.
  split; [apply rank_eq|]. split.
  { destruct (List.find (isExact q) fullData) as [first|] eqn:Hfind.
    - by rewrite (rank_pinned _ _ _ Hfind).
    - by rewrite rank_unpinned. }
  split; [apply sorted_goesBefore|]. split; [apply sort_perm|].
  split; [done|]. split.
  - trans (take 1 (List.filter (isExact q) fullData)
             ++ List.filter (notExact q) fullData); [by apply Permutation_submseteq|].
    trans (List.filter (isExact q) fullData ++ List.filter (notExact q) fullData);
      [|by apply Permutation_submseteq].
    apply submseteq_app; [|done]. apply sublist_submseteq, sublist_take.
  - intros Hone. etrans; [exact Hkept|]. by rewrite take_ge by done.
Qed.

Lemma rank_keeps_first_exact_match_witness :
  (List.length (List.filter (isExact "alice")
     [named "alice_w"; named "alice"; named "xalice"]) ≤ 1)%nat ∧
  Permutation (rank "alice" [named "alice_w"; named "alice"; named "xalice"])
    [named "alice_w"; named "alice"; named "xalice"].
Proof.
  assert ((List.length (List.filter (isExact "alice")
     [named "alice_w"; named "alice"; named "xalice"]) ≤ 1)%nat) as H.
  { vm_compute. lia. }
  split; [exact H|].
  exact (proj2 (proj2 (proj2 (proj2 (proj2 (proj2 (rank_keeps_first_exact_match "alice"
    [named "alice_w"; named "alice"; named "xalice"])))))) H).
Defined.

Lemma serve_page_one term size fullData first rest :
  1 ≤ size → rank (toLowerCase term) fullData = first :: rest →
  ∃ others,
    serve term 1 (Finite size) fullData =
    {| status := 200;
       body := PageBody (project first :: others)
                 (Z.of_nat (List.length fullData)) 1 MAX_PAGES |}.
Proof.
  intros Hsize Hrank. unfold serve. rewrite Hrank.
  assert (0 < 2 ^ 53 - 1) as Hmax by by vm_compute.
  rewrite paginate_finite by (pose proof small_bounds; lia).
  replace (Z.to_nat ((1 - 1) * size)) with 0%nat by lia.
  destruct (Z.to_nat size) as [|n] eqn:Hn; [lia|].
  destruct (Z.to_nat (2 ^ 53 - 1)) as [|m] eqn:Hm; [lia|].
  cbn. eauto.
Qed.

(** A limit that is read as [Infinity] is answered 404 on every page. *)
Lemma serve_infinite term page fullData :
  1 ≤ page ≤ MAX_PAGES →
  serve term (Finite page) Infinity fullData =
  fail 404 ("No related profiles found for page " +:+ toString page +:+ ".").
Proof.
  intros Hpage. unfold serve. rewrite paginate_infinite; [done|].
  unfold MAX_PAGES in Hpage. pose proof small_bounds. lia.
Qed.

(** C2, as the specification states it, fails: for the query "alice" the
    dataset alice_w, Alice, alice is ranked Alice, alice_w, which is not
    Alice followed by the remainder of the dataset, alice_w and alice, in
    any order.  And a page size of 310 nines, which is at least 1, is read
    as [Infinity]: page 1 is then empty and the request is answered 404,
    though "alice" is in the dataset. *)
Lemma rank_is_not_first_then_remainder :
  (List.find (isExact "alice") [named "alice_w"; named "Alice"; named "alice"]
     = Some (named "Alice") ∧
   ∀ rest, Permutation rest [named "alice_w"; named "alice"] →
           rank "alice" [named "alice_w"; named "Alice"; named "alice"]
             ≠ named "Alice" :: rest) ∧
  (requestedLimit (get "alice" (Some "1") (Some nines)) = Some (10 ^ 310 - 1) ∧
   validate (get "alice" (Some "1") (Some nines)) = inr ("alice", Finite 1, Infinity) ∧
   List.find (isExact "alice") twoRecords = Some (named "alice") ∧
   (serveRequest (listing twoRecords) (get "alice" (Some "1") (Some nines))
      {[ "alice" := twoRecords ]}).1.1
     = fail 404 "No related profiles found for page 1.").
Proof.
  split.
  - split; [reflexivity|].
    intros rest Hrest Hrank.
    change (rank "alice" [named "alice_w"; named "Alice"; named "alice"])
      with [named "Alice"; named "alice_w"] in Hrank.
    injection Hrank as <-. by apply Permutation_length in Hrest.
  - split; [by vm_compute|]. split; [by vm_compute|]. split; [reflexivity|].
    by vm_compute.
Qed.

(** C2, amended.  When some record's username, lower-cased (the empty
    string if there is no username), equals the lower-cased query, the
    ranked order is the first such record of the input, then the records
    whose username does not equal the query, sorted: a username that
    starts with the query goes before one that does not, and in the same
    group a shorter username goes before a longer one.  So that record is
    the first profile of page 1 for every page size that is at least 1 and
    that the handler reads as a finite number, whether the page is served
    from the cache or from a fetch; a page size that it reads as
    [Infinity] is answered 404.  The dataset alice_w, alice, xalice is
    ranked alice, alice_w, xalice for the query alice. *)
Theorem exact_match_is_pinned_first q fullData first :
  List.find (isExact q) fullData = Some first →
  userOf first = q ∧
  (∃ rest,
     rank q fullData = first :: rest ∧
     StronglySorted (goesBefore q) rest ∧
     Permutation rest (List.filter (notExact q) fullData)) ∧
  (∀ term (pageSize : Z), toLowerCase term = q → 1 ≤ pageSize →
     ∃ others,
       serve term 1 (Finite pageSize) fullData =
       {| status := 200;
          body := PageBody (project first :: others)
                    (Z.of_nat (List.length fullData)) 1 MAX_PAGES |}) ∧
  (∀ apify req term (pageSize : Z) cache,
     method req = "GET" → validate req = inr (term, Finite 1, Finite pageSize) →
     toLowerCase term = q →
     cache !! q = Some fullData ∨
     cache_get cache q = Missing ∧
     datasetFetcher apify term (MAX_PAGES * pageSize)%num = Items fullData →
     ∃ others,
       (serveRequest apify req cache).1.1 =
       {| status := 200;
          body := PageBody (project first :: others)
                    (Z.of_nat (List.length fullData)) 1 MAX_PAGES |}) ∧
  (∀ apify req term cache,
     method req = "GET" → validate req = inr (term, Finite 1, Infinity) →
     toLowerCase term = q →
     cache !! q = Some fullData ∨
     cache_get cache q = Missing ∧
     datasetFetcher apify term (MAX_PAGES * Infinity)%num = Items fullData →
     (serveRequest apify req cache).1.1 =
     fail 404 "No related profiles found for page 1.") ∧
  rank "alice" [named "alice_w"; named "alice"; named "xalice"]
    = [named "alice"; named "alice_w"; named "xalice"].
Proof.
  intros Hfind. pose proof (rank_pinned _ _ _ Hfind) as Hrank.
  assert (∀ term (pageSize : Z), toLowerCase term = q → 1 ≤ pageSize →
     ∃ others,
       serve term 1 (Finite pageSize) fullData =
       {| status := 200;
          body := PageBody (project first :: others)
                    (Z.of_nat (List.length fullData)) 1 MAX_PAGES |}) as Hserve.
  { intros term pageSize <- Hsize. by eapply serve_page_one. }
  assert (∀ apify req term size cache,
     method req = "GET" → validate req = inr (term, Finite 1, size) →
     toLowerCase term = q →
     cache !! q = Some fullData ∨
     cache_get cache q = Missing ∧
     datasetFetcher apify term (MAX_PAGES * size)%num = Items fullData →
     (serveRequest apify req cache).1.1 = serve term 1 size fullData) as Hreq.
  { intros apify req term size cache Hm Hv Hq Hdata.
    rewrite (serveRequest_get _ _ _ Hm), Hv, Hq.
    destruct Hdata as [Hc|[Hmiss Hitems]].
    + apply cache_get_cached in Hc. by rewrite Hc.
    + rewrite Hmiss, <-Hq.
      pose proof (complete_fetch apify term 1 size cache) as Hfetch.
      destruct (complete apify _ cache) as [[res cache'] asked].
      destruct Hfetch as [_ Hfetch]. rewrite Hitems in Hfetch. by simplify_eq. }
  split; [|split; [|split; [|split; [|split]]]].
  - apply find_some in Hfind as [_ Hex]. by apply String.eqb_eq in Hex.
  - eexists. split; [exact Hrank|]. split; [apply sorted_goesBefore|].
    apply sort_perm.
  - exact Hserve.
  - intros apify req term pageSize cache Hm Hv Hq Hdata.
    rewrite (Hreq _ _ _ _ _ Hm Hv Hq Hdata).
    apply validate_accepts in Hv as (_ & _ & _ & _ & _ & (l & _ & Hl & Hsize)).
    apply Hserve; [done|].
    destruct (decide (l ≤ 2 ^ 53)).
    + rewrite toNumber_exact in Hl by lia. by simplify_eq.
    + destruct (toNumber_large l ltac:(lia)) as [Hinf|(m & Hm' & Hbig)];
        rewrite ?Hinf, ?Hm' in Hl; simplify_eq.
      assert (0 < 2 ^ 53) by by vm_compute. lia.
  - intros apify req term cache Hm Hv Hq Hdata.
    rewrite (Hreq _ _ _ _ _ Hm Hv Hq Hdata).
    by rewrite serve_infinite by (unfold MAX_PAGES; lia).
  - by vm_compute.
Qed.

Lemma exact_match_is_pinned_first_witness :
  List.find (isExact "alice") [named "alice_w"; named "Alice"; named "xalice"]
    = Some (named "Alice") ∧
  ∃ others,
    serve "ALICE" 1 2 [named "alice_w"; named "Alice"; named "xalice"] =
    {| status := 200;
       body := PageBody (project (named "Alice") :: others) 3 1 MAX_PAGES |}.
Proof.
  split; [reflexivity|].
  refine (proj1 (proj2 (proj2 (exact_match_is_pinned_first "alice"
    [named "alice_w"; named "Alice"; named "xalice"] (named "Alice") _)))
    "ALICE" 2 _ _); [reflexivity|reflexivity|lia].
Defined.

(** ** Pagination *)

(** The page that the handler cuts for a requested size that it reads as a
    finite number is the one exact arithmetic gives: the size and the
    bounds are rounded only when they are beyond [2 ^ 53], where they are
    beyond the end of every array. *)
Lemma paginate_requested orderedData page size :
  1 ≤ page ≤ MAX_PAGES → 1 ≤ size → toNumber size ≠ Infinity →
  Z.of_nat (List.length orderedData) < 2 ^ 53 →
  paginate orderedData (Finite page) (toNumber size) =
  take (Z.to_nat size) (drop (Z.to_nat ((page - 1) * size)) orderedData).
Proof.
  intros Hpage Hsize Hfin Hlen. pose proof small_bounds as [_ Hseven].
  unfold MAX_PAGES in Hpage.
  destruct (decide (size ≤ 2 ^ 53)).
  { rewrite toNumber_exact by lia. apply paginate_take_drop; lia. }
  destruct (toNumber_large size ltac:(lia)) as [?|(m & -> & Hm)]; [done|].
  rewrite paginate_take_drop by lia.
  destruct (decide (page = 1)) as [->|].
  - replace (Z.to_nat ((1 - 1) * m)) with 0%nat by lia.
    replace (Z.to_nat ((1 - 1) * size)) with 0%nat by lia.
    rewrite !drop_0. by rewrite !take_ge by lia.
  - assert (m ≤ (page - 1) * m) by nia.
    assert (size ≤ (page - 1) * size) by nia.
    rewrite !drop_ge by lia. by rewrite !take_nil.
Qed.

Lemma pagesUpTo_requested orderedData size k :
  (k ≤ Z.to_nat MAX_PAGES)%nat → 1 ≤ size → toNumber size ≠ Infinity →
  Z.of_nat (List.length orderedData) < 2 ^ 53 →
  concat (pagesUpTo orderedData (toNumber size) k) =
  take (k * Z.to_nat size) orderedData.
Proof.
  intros Hk Hsize Hfin Hlen. unfold pagesUpTo. unfold MAX_PAGES in Hk.
  induction k as [|k IH]; [done|].
  rewrite seq_S, List.map_app, concat_app, IH by lia. cbn [List.map concat].
  rewrite app_nil_r, paginate_requested by (try done; unfold MAX_PAGES; lia).
  replace (Z.to_nat ((Z.of_nat (1 + k) - 1) * size))
    with (k * Z.to_nat size)%nat by nia.
  rewrite take_take_drop. f_equal. lia.
Qed.

(** C5, as the specification states it, fails: a page size of 310 nines
    is at least 1, and the handler reads it as [Infinity]; the bounds of
    the slice are then [NaN] on page 1 and [Infinity] on the pages after
    it, and every page is empty, where the first 310 nines records of the
    ranked order are all of them. *)
Lemma pages_of_an_infinite_limit_are_empty :
  requestedLimit (get "alice" (Some "1") (Some nines)) = Some (10 ^ 310 - 1) ∧
  1 ≤ 10 ^ 310 - 1 ∧
  validate (get "alice" (Some "1") (Some nines)) = inr ("alice", Finite 1, Infinity) ∧
  rank "alice" twoRecords = [named "alice"; named "alice_w"] ∧
  (∀ n, (2 ≤ n)%nat →
     take n (drop 0 (rank "alice" twoRecords)) = [named "alice"; named "alice_w"]) ∧
  paginate (rank "alice" twoRecords) 1 Infinity = [] ∧
  concat (pagesUpTo (rank "alice" twoRecords) Infinity 7) = [].
Proof.
  split; [by vm_compute|]. split; [by vm_compute|]. split; [by vm_compute|].
  split; [by vm_compute|]. split; [|split; by vm_compute].
  intros n Hn. by rewrite drop_0, take_ge by (vm_compute; lia).
Qed.

(** C5, amended.  For every ranked dataset and every page size that is at
    least 1 and that the handler reads as a finite number (a dataset being
    an array, it has fewer than 2^53 records), the slice of a page from 1
    to MAX_PAGES is ranked[(page-1)*pageSize : (page-1)*pageSize +
    pageSize], and the slices of pages 1 to k, one after the other, are the
    first k * pageSize records of the ranked order, or all of them when
    there are fewer: nothing is repeated and nothing is left out.  When the
    page size is read as [Infinity] every slice is empty. *)
Theorem pages_are_the_prefix q fullData pageSize :
  1 ≤ pageSize → Z.of_nat (List.length fullData) < 2 ^ 53 →
  (toNumber pageSize ≠ Infinity →
   (∀ page, 1 ≤ page ≤ MAX_PAGES →
      paginate (rank q fullData) (Finite page) (toNumber pageSize) =
      take (Z.to_nat pageSize)
        (drop (Z.to_nat ((page - 1) * pageSize)) (rank q fullData))) ∧
   (∀ k : nat, (k ≤ Z.to_nat MAX_PAGES)%nat →
      concat (pagesUpTo (rank q fullData) (toNumber pageSize) k) =
      take (k * Z.to_nat pageSize) (rank q fullData))) ∧
  (toNumber pageSize = Infinity →
   ∀ page, 1 ≤ page ≤ MAX_PAGES →
     paginate (rank q fullData) (Finite page) (toNumber pageSize) = []).
Proof.
  intros Hsize Hlen. pose proof (rank_length_le q fullData) as Hrank.
  split.
  - intros Hfin. split.
    + intros page Hpage. apply paginate_requested; try done; lia.
    + intros k Hk. apply pagesUpTo_requested; try done; lia.
  - intros -> page Hpage. apply paginate_infinite.
    pose proof small_bounds. unfold MAX_PAGES in Hpage. lia.
Qed.

Lemma pages_are_the_prefix_witness :
  1 ≤ 2 ∧
  Z.of_nat (List.length [named "abc"; named "b"; named "ab"; named "a"; named "c"])
    < 2 ^ 53 ∧
  toNumber 2 ≠ Infinity ∧
  concat (pagesUpTo (rank "a" [named "abc"; named "b"; named "ab"; named "a"; named "c"])
            (toNumber 2) 2)
    = take (2 * Z.to_nat 2)
        (rank "a" [named "abc"; named "b"; named "ab"; named "a"; named "c"]).
Proof.
  assert (1 ≤ 2) as H by lia.
  assert (Z.of_nat (List.length [named "abc"; named "b"; named "ab"; named "a"; named "c"])
            < 2 ^ 53) as Hlen by by vm_compute.
  assert (toNumber 2 ≠ Infinity) as Hfin by by vm_compute.
  split; [exact H|]. split; [exact Hlen|]. split; [exact Hfin|].
  refine (proj2 (proj1 (pages_are_the_prefix "a"
    [named "abc"; named "b"; named "ab"; named "a"; named "c"] 2 H Hlen) Hfin) 2%nat _).
  vm_compute. lia.
Defined.

(** ** Purity of the ranking *)

(** C8.  The ranking is a function of the query and of the contents of the
    dataset: on any heap the block returns a new array that holds [rank],
    and every array that was there, the dataset among them, holds what it
    held.  The sort is stable: the records that tie with a record that is
    not an exact match keep the order of the input (of the exact matches,
    which tie with each other, the first is kept).  And ranking a ranked
    array again for the same query gives the same array. *)
Theorem ranking_is_pure_stable_idempotent q fullData data (h : Arrays.Heap) :
  h !! fullData = Some data →
  (∃ orderedData h',
     Arrays.rankBlock q fullData h = (orderedData, h') ∧
     h' !! orderedData = Some (rank q data) ∧
     h' !! fullData = Some data ∧
     ∀ array, is_Some (h !! array) → h' !! array = h !! array) ∧
  (∀ item,
     List.filter (tie (comparator q) item) (rank q data) =
     if isExact q item then take 1 (List.filter (tie (comparator q) item) data)
     else List.filter (tie (comparator q) item) data) ∧
  rank q (rank q data) = rank q data.
Proof.
  intros Hdata. split; [|split].
  - destruct (rankBlock_spec q fullData data h Hdata) as (r & h' & Hrun & Hr & _ & Hkeep).
    exists r, h'. split; [done|]. split; [done|]. split; [|done].
    rewrite <-Hdata. apply Hkeep. by rewrite Hdata.
  - intros item. apply rank_stable.
  - apply rank_idempotent.
Qed.

Lemma ranking_is_pure_stable_idempotent_witness :
  ({[ 0%nat := [named "bob"; named "alice_w"; named "alice"] ]} : Arrays.Heap) !! 0%nat
    = Some [named "bob"; named "alice_w"; named "alice"] ∧
  rank "alice" (rank "alice" [named "bob"; named "alice_w"; named "alice"])
    = rank "alice" [named "bob"; named "alice_w"; named "alice"].
Proof.
  assert (({[ 0%nat := [named "bob"; named "alice_w"; named "alice"] ]} : Arrays.Heap) !! 0%nat
    = Some [named "bob"; named "alice_w"; named "alice"]) as H by reflexivity.
  split; [exact H|].
  exact (proj2 (proj2 (ranking_is_pure_stable_idempotent "alice" 0%nat
    [named "bob"; named "alice_w"; named "alice"] _ H))).
Defined.

(** ** The method guard *)

(** C9.  A request whose method is not GET is answered 405 with an error
    body, whatever its parameters and whatever the cache holds; nothing is
    asked of the Apify client, the cache is left as it is, and on the
    server the request is over in the segment it arrived in. *)
Theorem other_methods_get_405 req :
  method req ≠ "GET" →
  ∃ error,
    (∀ cache, handler req cache = Respond (fail 405 error)) ∧
    (∀ apify cache, serveRequest apify req cache = (fail 405 error, cache, [])) ∧
    (∀ s, fullSearchCache (step s (Arrive req)) = fullSearchCache s ∧
          suspended (step s (Arrive req)) = suspended s ∧
          invocations (step s (Arrive req)) = invocations s ∧
          sent (step s (Arrive req)) = sent s ++ [(nextTicket s, fail 405 error)]).
Proof.
  intros Hm. eexists. split; [|split].
  - intros cache. by apply handler_not_get.
  - intros apify cache. by apply serveRequest_respond, handler_not_get.
  - intros s. cbn. by rewrite handler_not_get.
Qed.

Lemma other_methods_get_405_witness :
  "POST" ≠ "GET" ∧
  ∃ error,
    serveRequest {| call := λ _, Fulfilled None;
                    listItems := λ _ _ _, Fulfilled {| items := None |} |}
      {| method := "POST"; query := Some "alice"; platform := None;
         page := None; limit := None |} ∅
    = (fail 405 error, ∅, []).
Proof.
  assert ("POST" ≠ "GET") as H by discriminate.
  split; [exact H|].
  destruct (other_methods_get_405
    {| method := "POST"; query := Some "alice"; platform := None;
       page := None; limit := None |} H) as (error & _ & Hserve & _).
  exists error. apply Hserve.
Defined.

(** ** Validation *)

(** C3.  A request whose parameters are invalid (the query absent, empty or
    the wildcard; a platform given that is not "instagram" whatever the
    case of its letters; [page] or [limit] not an integer that is at
    least 1; the page beyond [MAX_PAGES], whatever [limit] is) is answered
    in the segment it arrives in, and a GET request, the one kind that
    reaches the validation, is answered 400: nothing is asked of the Apify
    client, no request is left suspended, and the cache is left as it
    is. *)
Theorem invalid_parameters_get_400 req :
  InvalidParameters req →
  ∃ res,
    (∀ cache, handler req cache = Respond res) ∧
    (∀ apify cache, serveRequest apify req cache = (res, cache, [])) ∧
    (∀ s, invocations (step s (Arrive req)) = invocations s ∧
          suspended (step s (Arrive req)) = suspended s) ∧
    (method req = "GET" → ∃ error, res = fail 400 error).
Proof.
  intros [error Hv]%invalid_validate.
  destruct (decide (method req = "GET")) as [Hm|Hm].
  - exists (fail 400 error).
    assert (∀ cache, handler req cache = Respond (fail 400 error)) as Hh.
    { intros cache. by rewrite (handler_get _ _ Hm), Hv. }
    split; [done|]. split; [|split].
    + intros apify cache. by apply serveRequest_respond.
    + intros s. cbn. by rewrite Hh.
    + eauto.
  - exists (fail 405 "Method Not Allowed. Only GET is supported.").
    assert (∀ cache, handler req cache =
              Respond (fail 405 "Method Not Allowed. Only GET is supported.")) as Hh.
    { intros cache. by apply handler_not_get. }
    split; [exact Hh|]. split; [|split].
    + intros apify cache. by apply serveRequest_respond.
    + intros s. cbn. by rewrite Hh.
    + done.
Qed.

Lemma invalid_parameters_get_400_witness :
  InvalidParameters
    {| method := "GET"; query := Some "alice"; platform := Some "Instagram";
       page := Some "8"; limit := Some "many" |} ∧
  ∃ error,
    serveRequest {| call := λ _, Fulfilled None;
                    listItems := λ _ _ _, Fulfilled {| items := None |} |}
      {| method := "GET"; query := Some "alice"; platform := Some "Instagram";
         page := Some "8"; limit := Some "many" |} ∅
    = (fail 400 error, ∅, []).
Proof.
  assert (InvalidParameters
    {| method := "GET"; query := Some "alice"; platform := Some "Instagram";
       page := Some "8"; limit := Some "many" |}) as H.
  { apply PageBeyondMax with (k := 8); [reflexivity|reflexivity]. }
  split; [exact H|].
  destruct (invalid_parameters_get_400 _ H) as (res & _ & Hserve & _ & Hget).
  destruct (Hget eq_refl) as [error ->].
  exists error. apply Hserve.
Defined.

(** ** The 200 response *)

(** C7.  The body of a 200 response holds the projections of the records
    of the requested page of the ranked dataset; [total] is the length of
    the whole dataset the cache holds for the query, [currentPage] is the
    page the request asked for, and [totalPages] is [MAX_PAGES], which
    is 7.  The projection is a total function: the id is the id of the
    record, or the username when the id is absent; the bio is the bio of
    the record, or the empty string; the picture is the first of the
    high-definition URL, the standard URL and the placeholder path that is
    not absent. *)
Theorem ok_response_body apify req cache res cache' asked :
  serveRequest apify req cache = (res, cache', asked) →
  status res = 200 →
  (∃ term (pageNo : Z) size fullData,
     validate req = inr (term, Finite pageNo, size) ∧
     requestedPage req = Some pageNo ∧
     cache' !! toLowerCase term = Some fullData ∧
     paginate (rank (toLowerCase term) fullData) pageNo size ≠ [] ∧
     body res =
     PageBody
       (List.map project (paginate (rank (toLowerCase term) fullData) pageNo size))
       (Z.of_nat (List.length fullData)) pageNo MAX_PAGES) ∧
  MAX_PAGES = 7 ∧
  (∀ item,
     (¬ absent (id item) → profile_id (project item) = id item) ∧
     (absent (id item) → profile_id (project item) = username item) ∧
     profile_username (project item) = username item ∧
     profile_bio (project item) = default "" (bio item) ∧
     (¬ absent (profilePicUrlHD item) →
      Some (profilePicture (project item)) = profilePicUrlHD item) ∧
     (absent (profilePicUrlHD item) → ¬ absent (profilePicUrl item) →
      Some (profilePicture (project item)) = profilePicUrl item) ∧
     (absent (profilePicUrlHD item) → absent (profilePicUrl item) →
      profilePicture (project item) = "/no-profile-pic-img.png")).
Proof.
  intros Hserve Hok. split; [|split; [done|]].
  - destruct (decide (method req = "GET")) as [Hm|Hm].
    2:{ rewrite (serveRequest_respond _ _ _ _ (handler_not_get _ cache Hm)) in Hserve.
        by simplify_eq. }
    rewrite (serveRequest_get _ _ _ Hm) in Hserve.
    destruct (validate req) as [res'|[[term pageNo] size]] eqn:Hv.
    { destruct (validate_rejects _ _ Hv) as [error ->]. by simplify_eq. }
    pose proof (validate_accepts _ _ _ _ Hv)
      as (_ & _ & _ & _ & (pageNo' & Hpage & -> & _) & _).
    rename pageNo' into pageNo. exists term, pageNo, size.
    assert (∀ fullData, res = serve term pageNo size fullData →
      paginate (rank (toLowerCase term) fullData) pageNo size ≠ [] ∧
      body res = PageBody
        (List.map project (paginate (rank (toLowerCase term) fullData) pageNo size))
        (Z.of_nat (List.length fullData)) pageNo MAX_PAGES) as Hbody.
    { intros fullData ->.
      destruct (serve_cases term pageNo size fullData) as [[_ Heq]|[Hne Heq]];
        rewrite Heq in Hok |- *; [done|]. done. }
    destruct (cache_get cache (toLowerCase term)) as [fullData| |] eqn:Hget.
    + simplify_eq. exists fullData. apply cache_get_cached in Hget.
      destruct (Hbody fullData eq_refl). done.
    + exfalso. by simplify_eq.
    + pose proof (complete_fetch apify term pageNo size cache) as Hfetch.
      rewrite Hserve in Hfetch. destruct Hfetch as [_ Hfetch].
      destruct (datasetFetcher apify term (MAX_PAGES * size)%num) as [error| | |fullData];
        simplify_eq.
      * by destruct (catch_not_200 error).
      * exists fullData. rewrite lookup_insert_eq.
        destruct (Hbody fullData eq_refl). done.
  - intros item. rewrite <-!truthy_not_absent, <-!truthy_absent.
    unfold project, or_else. cbn.
    destruct (truthy (id item)), (truthy (profilePicUrlHD item)) eqn:Hhd,
      (truthy (profilePicUrl item)) eqn:Hstd, (bio item) as [b|] eqn:Hbio;
      cbn; repeat split; try done;
      try (destruct (profilePicUrlHD item); done);
      try (destruct (profilePicUrl item); done);
      by destruct (String.eqb_spec b "").
Qed.

Lemma ok_response_body_witness :
  serveRequest (listing twoRecords) secondPage ∅
    = ({| status := 200; body := PageBody [project (named "alice_w")] 2 2 7 |},
       <["alice" := twoRecords]> ∅,
       [Called (actorInput "Alice" 7); Listed "dataset" 7 0]) ∧
  ∃ term (pageNo : Z) size fullData,
    validate secondPage = inr (term, Finite pageNo, size) ∧
    requestedPage secondPage = Some pageNo ∧
    (<["alice" := twoRecords]> ∅ : Cache) !! toLowerCase term = Some fullData ∧
    paginate (rank (toLowerCase term) fullData) pageNo size ≠ [] ∧
    PageBody [project (named "alice_w")] 2 2 7 =
    PageBody
      (List.map project (paginate (rank (toLowerCase term) fullData) pageNo size))
      (Z.of_nat (List.length fullData)) pageNo MAX_PAGES.
Proof.
  assert (serveRequest (listing twoRecords) secondPage ∅
    = ({| status := 200; body := PageBody [project (named "alice_w")] 2 2 7 |},
       <["alice" := twoRecords]> ∅,
       [Called (actorInput "Alice" 7); Listed "dataset" 7 0])) as Hserve
    by reflexivity.
  split; [exact Hserve|].
  exact (proj1 (ok_response_body _ _ _ _ _ _ Hserve eq_refl)).
Defined.

(** ** Failures *)

(** C6, as the specification states it, fails: a failure whose message
    holds both "TIMEOUT" and "invalid token" is answered 504, not 401. *)
Lemma timeout_is_tested_before_invalid_token :
  messageIncludes {| message := Some "TIMEOUT: invalid token" |} "invalid token" = true ∧
  status (serveRequest (failing {| message := Some "TIMEOUT: invalid token" |})
            (get "alice" None None) ∅).1.1 = 504 ∧
  status (serveRequest (failing {| message := Some "TIMEOUT: invalid token" |})
            (get "alice" None None) ∅).1.1 ≠ 401.
Proof. by vm_compute. Qed.

(** C6, amended.  A failure thrown by the fetch is answered 504 when its
    message contains "TIMEOUT", 401 when its message contains "invalid
    token" and not "TIMEOUT", and 500 otherwise; a fetch without a usable
    result container is answered 502; a fetch that returns no item, and a
    page whose slice is empty, are answered 404. *)
Theorem failures_map_to_statuses :
  (∀ error,
     status (catch error) =
     if messageIncludes error "TIMEOUT" then 504
     else if messageIncludes error "invalid token" then 401 else 500) ∧
  (∀ apify req cache term pageNo size,
     method req = "GET" → validate req = inr (term, pageNo, size) →
     cache_get cache (toLowerCase term) = Missing →
     status (serveRequest apify req cache).1.1 =
     match datasetFetcher apify term (MAX_PAGES * size)%num with
     | Failed error =>
         if messageIncludes error "TIMEOUT" then 504
         else if messageIncludes error "invalid token" then 401 else 500
     | NoResultSet => 502
     | EmptyResult => 404
     | Items fullData =>
         if bool_decide (paginate (rank (toLowerCase term) fullData) pageNo size = [])
         then 404 else 200
     end) ∧
  (∀ term pageNo size fullData,
     paginate (rank (toLowerCase term) fullData) pageNo size = [] →
     status (serve term pageNo size fullData) = 404).
Proof.
  split; [apply catch_status|]. split.
  - intros apify req cache term pageNo size Hm Hv Hmiss.
    rewrite (serveRequest_get _ _ _ Hm), Hv, Hmiss.
    pose proof (complete_fetch apify term pageNo size cache) as Hfetch.
    destruct (complete apify _ cache) as [[res cache'] asked].
    destruct Hfetch as [_ Hfetch]. cbn [fst].
    destruct (datasetFetcher apify term (MAX_PAGES * size)%num); simplify_eq;
      [apply catch_status|done|done|apply serve_status].
  - intros term pageNo size fullData Hnil.
    by rewrite serve_status, bool_decide_eq_true_2.
Qed.

Lemma failures_map_to_statuses_witness :
  method (get "alice" None None) = "GET" ∧
  validate (get "alice" None None) = inr ("alice", Finite 1, Finite 5) ∧
  cache_get ∅ (toLowerCase "alice") = Missing ∧
  status (serveRequest (failing {| message := Some "connect ETIMEOUT" |})
            (get "alice" None None) ∅).1.1 =
  match datasetFetcher (failing {| message := Some "connect ETIMEOUT" |})
          "alice" (MAX_PAGES * 5)%num with
  | Failed error =>
      if messageIncludes error "TIMEOUT" then 504
      else if messageIncludes error "invalid token" then 401 else 500
  | NoResultSet => 502
  | EmptyResult => 404
  | Items fullData =>
      if bool_decide (paginate (rank (toLowerCase "alice") fullData) 1 5 = [])
      then 404 else 200
  end.
Proof.
  assert (method (get "alice" None None) = "GET") as Hm by reflexivity.
  assert (validate (get "alice" None None) = inr ("alice", Finite 1, Finite 5)) as Hv by reflexivity.
  assert (cache_get ∅ (toLowerCase "alice") = Missing) as Hc by reflexivity.
  split; [exact Hm|]. split; [exact Hv|]. split; [exact Hc|].
  exact (proj1 (proj2 failures_map_to_statuses) _ _ _ _ _ _ Hm Hv Hc).
Defined.

(** ** The cache *)





(** C4.  Once a dataset is cached for a lower-cased query, the key stays
    cached through every later event, and a request for that query that
    arrives later, with any page, any limit and any case of the letters of
    the query, is answered in the segment it arrives in: it is never
    suspended and never asks anything of the Apify client, whatever
    happens afterwards.  When the request is valid it is served from the
    entry of the lower-cased query, the one entry that all the casings of
    the query share. *)
Theorem cached_query_is_not_fetched_again earlier later after first req term :
  is_Some (fullSearchCache (run boot earlier) !! toLowerCase first) →
  query req = Some term → toLowerCase term = toLowerCase first →
  ∃ res,
    handler req (fullSearchCache (run boot (earlier ++ later))) = Respond res ∧
    (nextTicket (run boot (earlier ++ later)), res)
      ∈ sent (run boot (earlier ++ later ++ Arrive req :: after)) ∧
    (∀ inv, (nextTicket (run boot (earlier ++ later)), inv)
              ∉ invocations (run boot (earlier ++ later ++ Arrive req :: after))) ∧
    suspended (run boot (earlier ++ later ++ Arrive req :: after))
      !! nextTicket (run boot (earlier ++ later)) = None ∧
    is_Some (fullSearchCache (run boot (earlier ++ later ++ Arrive req :: after))
               !! toLowerCase first) ∧
    (∀ pageNo size,
       method req = "GET" → validate req = inr (term, pageNo, size) →
       ∃ fullData,
         fullSearchCache (run boot (earlier ++ later)) !! toLowerCase first
           = Some fullData ∧
         res = serve term pageNo size fullData).
Proof.
  intros Hcached Hq Hterm.
  rewrite (app_assoc earlier later), (run_app boot (earlier ++ later)).
  set (s := run boot (earlier ++ later)).
  assert (is_Some (fullSearchCache s !! toLowerCase first)) as [fullData Hs].
  { unfold s. rewrite run_app. by apply run_cached. }
  assert (issued s) as Hissued by apply run_issued, boot_issued.
  destruct (handler_cached req (fullSearchCache s) term fullData Hq)
    as [res Hres]; [by rewrite Hterm|].
  exists res. split; [done|].
  destruct (arrive_silent s req res Hissued Hres) as (Hsilent & Hsent & Hsame).
  change (run s (Arrive req :: after)) with (run (step s (Arrive req)) after).
  destruct (run_silent _ _ after Hsilent) as (_ & Hsus & Hinv).
  split; [|split; [done|split; [done|split]]].
  - apply run_sent. rewrite Hsent. apply elem_of_app. right. by left.
  - apply run_cached. rewrite Hsame. eauto.
  - intros pageNo size Hm Hv. exists fullData. split; [done|].
    rewrite (handler_get _ _ Hm), Hv, Hterm in Hres.
    apply cache_get_cached in Hs. rewrite Hs in Hres. by simplify_eq.
Qed.

Lemma cached_query_is_not_fetched_again_witness :
  is_Some (fullSearchCache (run boot firstFetch) !! toLowerCase "Alice") ∧
  query (get "ALICE" (Some "2") (Some "1")) = Some "ALICE" ∧
  toLowerCase "ALICE" = toLowerCase "Alice" ∧
  ∃ res,
    (nextTicket (run boot (firstFetch ++ [])), res)
      ∈ sent (run boot (firstFetch ++ [] ++ [Arrive (get "ALICE" (Some "2") (Some "1"))])) ∧
    ∀ inv, (nextTicket (run boot (firstFetch ++ [])), inv)
             ∉ invocations
                 (run boot (firstFetch ++ [] ++ [Arrive (get "ALICE" (Some "2") (Some "1"))])).
Proof.
  assert (is_Some (fullSearchCache (run boot firstFetch) !! toLowerCase "Alice")) as Hc.
  { exists twoRecords. reflexivity. }
  split; [exact Hc|]. split; [reflexivity|]. split; [reflexivity|].
  destruct (cached_query_is_not_fetched_again firstFetch [] [] "Alice"
              (get "ALICE" (Some "2") (Some "1")) "ALICE" Hc eq_refl eq_refl)
    as (res & _ & Hsent & Hinv & _).
  exists res. split; [exact Hsent|exact Hinv].
Defined.

(** * Further properties of the handler *)

(** ** The comparator and the sort *)

(** X1.  The comparator of lines 89-97 (and 103-110) is consistent: a
    record ties with itself, exchanging the two records negates the
    result, and "may stand before" and "ties" are transitive.  This is
    what [Array.prototype.sort] asks of a comparator for its result to be
    defined. *)
Theorem comparator_consistent q a b c :
  comparator q a a = 0 ∧
  comparator q b a = - comparator q a b ∧
  (comparator q a b ≤ 0 → comparator q b c ≤ 0 → comparator q a c ≤ 0) ∧
  (comparator q a b = 0 → comparator q b c = 0 → comparator q a c = 0).
Proof.
  unfold comparator, length.
  destruct (startsWith (userOf a) q), (startsWith (userOf b) q),
    (startsWith (userOf c) q); simpl; lia.
Qed.

Lemma comparator_consistent_witness :
  comparator "al" (named "alba") (named "alice") ≤ 0 ∧
  comparator "al" (named "alice") (named "bob") ≤ 0 ∧
  comparator "al" (named "alba") (named "bob") ≤ 0.
Proof.
  assert (comparator "al" (named "alba") (named "alice") ≤ 0) as H1
    by (vm_compute; discriminate).
  assert (comparator "al" (named "alice") (named "bob") ≤ 0) as H2
    by (vm_compute; discriminate).
  split; [exact H1|]. split; [exact H2|].
  exact (proj1 (proj2 (proj2 (comparator_consistent "al" (named "alba")
    (named "alice") (named "bob")))) H1 H2).
Defined.

(** X2.  The handler's use of [sort] has one possible result: an
    arrangement of the records that is sorted for the comparator and keeps
    the records that tie in the order of the input is the array that the
    stable sort returns, whatever algorithm computes it. *)
Theorem sort_result_is_determined q (l l' : list RawRecord) :
  StronglySorted (before (comparator q)) l' →
  (∀ x, List.filter (tie (comparator q) x) l' = List.filter (tie (comparator q) x) l) →
  l' = sort (comparator q) l.
Proof.
  apply sort_unique;
    [apply comparator_total|apply comparator_trans|apply comparator_tie].
Qed.

Lemma sort_result_is_determined_witness :
  StronglySorted (before (comparator "al")) [named "alice"; named "bob"] ∧
  [named "alice"; named "bob"] = sort (comparator "al") [named "alice"; named "bob"].
Proof.
  assert (StronglySorted (before (comparator "al")) [named "alice"; named "bob"]) as H.
  { repeat constructor. vm_compute. discriminate. }
  split; [exact H|].
  exact (sort_result_is_determined "al" [named "alice"; named "bob"]
           [named "alice"; named "bob"] H (λ x, eq_refl)).
Defined.

(** ** The ranking *)

Lemma prefix_length q s :
  String.prefix q s = true → (String.length q ≤ String.length s)%nat.
Proof.
  revert s. induction q as [|c q IH]; intros [|d s]; simpl; try done; [lia|].
  destruct (Ascii.ascii_dec c d); [|done]. intros H%IH. lia.
Qed.

(** An exact match may stand before every record. *)
Lemma exact_before_all q first item :
  isExact q first = true → before (comparator q) first item.
Proof.
  unfold isExact. intros Hq%String.eqb_eq.
  apply comparator_before. unfold goesBefore, startsWithQuery, startsWith.
  rewrite Hq, prefix_refl. split; [done|].
  intros Hstarts. symmetry in Hstarts. by apply prefix_length.
Qed.

Lemma rank_sorted q fullData :
  StronglySorted (before (comparator q)) (rank q fullData).
Proof.
  destruct (List.find (isExact q) fullData) as [first|] eqn:Hfind.
  - rewrite (rank_pinned _ _ _ Hfind). constructor; [apply sort_comparator_sorted|].
    apply find_some in Hfind as [_ Hfirst].
    apply List.Forall_forall. intros item _. by apply exact_before_all.
  - rewrite (rank_unpinned _ _ Hfind). apply sort_comparator_sorted.
Qed.

(** X3.  The whole ranked order, the pinned exact match included, is sorted:
    a username that starts with the query never comes after one that does
    not, and of two usernames in the same group the longer never comes
    first. *)
Theorem ranked_order_is_sorted q fullData :
  StronglySorted (goesBefore q) (rank q fullData).
Proof.
  pose proof (rank_sorted q fullData) as H.
  induction H as [|x rest Hrest IH Hx]; constructor; [done|].
  eapply Forall_impl; [exact Hx|]. intros y. apply comparator_before.
Qed.

(** X4.  When at most one record's username equals the query, the branch
    that pins the exact match (lines 83-99) and the branch that only sorts
    (lines 100-112) give the same array: the ranked order is the stable
    sort of the dataset. *)
Theorem rank_is_the_stable_sort q fullData :
  (exactCount q fullData ≤ 1)%nat →
  rank q fullData = sort (comparator q) fullData.
Proof.
  unfold exactCount. intros Hone.
  apply sort_unique;
    [apply comparator_total|apply comparator_trans|apply comparator_tie| |].
  - apply rank_sorted.
  - intros x. rewrite rank_stable.
    destruct (isExact q x) eqn:Hx; [|done].
    rewrite (filter_ext _ _ (tie_exact q x Hx)). by rewrite take_ge.
Qed.

Lemma rank_is_the_stable_sort_witness :
  (exactCount "alice" [named "alice_w"; named "Alice"; named "xalice"] ≤ 1)%nat ∧
  rank "alice" [named "alice_w"; named "Alice"; named "xalice"]
    = sort (comparator "alice") [named "alice_w"; named "Alice"; named "xalice"].
Proof.
  assert ((exactCount "alice" [named "alice_w"; named "Alice"; named "xalice"] ≤ 1)%nat)
    as H by (vm_compute; lia).
  split; [exact H|].
  exact (rank_is_the_stable_sort "alice" _ H).
Defined.

(** X5.  The ranking loses exactly the exact matches after the first: the
    ranked order and the number of those make up the dataset, and the
    ranked order is empty only when the dataset is. *)
Theorem rank_length q fullData :
  (List.length (rank q fullData) + (exactCount q fullData - 1)
     = List.length fullData)%nat ∧
  (rank q fullData = [] ↔ fullData = []).
Proof.
  unfold exactCount.
  pose proof (Permutation_length (rank_perm_kept q fullData)) as Hrank.
  pose proof (Permutation_length (filter_partition_perm (isExact q) fullData)
    : List.length (List.filter (isExact q) fullData
                     ++ List.filter (notExact q) fullData)
      = List.length fullData) as Hall.
  rewrite length_app in Hrank, Hall. rewrite length_take in Hrank.
  split; [lia|]. split.
  - intros Hnil. rewrite Hnil in Hrank. cbn in Hrank.
    destruct fullData as [|item rest]; [done|]. exfalso.
    cbn [List.filter] in Hrank, Hall. rewrite notExact_negb in Hrank, Hall.
    destruct (isExact q item); cbn in Hrank, Hall; lia.
  - by intros ->.
Qed.

(** ** Pagination *)

Lemma paginate_length orderedData page size :
  1 ≤ page ≤ MAX_PAGES → 1 ≤ size → toNumber size ≠ Infinity →
  Z.of_nat (List.length orderedData) < 2 ^ 53 →
  Z.of_nat (List.length (paginate orderedData (Finite page) (toNumber size))) =
  Z.max 0 (Z.min size (Z.of_nat (List.length orderedData) - (page - 1) * size)).
Proof.
  intros Hpage Hsize Hfin Hlen. rewrite paginate_requested by done.
  rewrite length_take, length_drop. nia.
Qed.

(** X6.  For a page from 1 to [MAX_PAGES] and a limit that is at least 1,
    of a dataset as short as an array is: when the handler reads the limit
    as a finite number, the page holds [limit] records, or as many as the
    ranked order has left from index [(page - 1) * limit] on, and the
    answer is 200 when that index is within the ranked order and 404 when
    it is at or beyond its end; when the handler reads the limit as
    [Infinity], the page is empty and the answer is 404. *)
Theorem page_is_served_when_in_range term page size fullData :
  1 ≤ page ≤ MAX_PAGES → 1 ≤ size → Z.of_nat (List.length fullData) < 2 ^ 53 →
  (toNumber size ≠ Infinity →
   Z.of_nat (List.length
     (paginate (rank (toLowerCase term) fullData) (Finite page) (toNumber size))) =
     Z.max 0 (Z.min size
       (Z.of_nat (List.length (rank (toLowerCase term) fullData)) - (page - 1) * size)) ∧
   (status (serve term (Finite page) (toNumber size) fullData) = 200 ↔
    (page - 1) * size < Z.of_nat (List.length (rank (toLowerCase term) fullData))) ∧
   (status (serve term (Finite page) (toNumber size) fullData) = 404 ↔
    Z.of_nat (List.length (rank (toLowerCase term) fullData)) ≤ (page - 1) * size)) ∧
  (toNumber size = Infinity →
   paginate (rank (toLowerCase term) fullData) (Finite page) (toNumber size) = [] ∧
   status (serve term (Finite page) (toNumber size) fullData) = 404).
Proof.
  intros Hpage Hsize Hdata.
  pose proof (rank_length_le (toLowerCase term) fullData) as Hrank.
  split.
  - intros Hfin.
    pose proof (paginate_length (rank (toLowerCase term) fullData) page size
                  Hpage Hsize Hfin ltac:(lia)) as Hlen.
    split; [done|]. rewrite serve_status.
    destruct (paginate (rank (toLowerCase term) fullData) page (toNumber size))
      as [|item rest] eqn:Hp.
    + rewrite bool_decide_eq_true_2 by done. cbn in Hlen. split; split; try done; lia.
    + rewrite bool_decide_eq_false_2 by done. cbn [List.length] in Hlen.
      split; split; try done; lia.
  - intros ->. rewrite serve_status, paginate_infinite.
    + by rewrite bool_decide_eq_true_2.
    + pose proof small_bounds. unfold MAX_PAGES in Hpage. lia.
Qed.

Lemma page_is_served_when_in_range_witness :
  1 ≤ 2 ≤ MAX_PAGES ∧ 1 ≤ 1 ∧ Z.of_nat (List.length twoRecords) < 2 ^ 53 ∧
  toNumber 1 ≠ Infinity ∧
  (status (serve "Alice" 2 (toNumber 1) twoRecords) = 200 ↔
   (2 - 1) * 1 < Z.of_nat (List.length (rank (toLowerCase "Alice") twoRecords))).
Proof.
  assert (1 ≤ 2 ≤ MAX_PAGES) as H1 by (unfold MAX_PAGES; lia).
  assert (1 ≤ 1) as H2 by lia.
  assert (Z.of_nat (List.length twoRecords) < 2 ^ 53) as H3 by by vm_compute.
  assert (toNumber 1 ≠ Infinity) as H4 by by vm_compute.
  split; [exact H1|]. split; [exact H2|]. split; [exact H3|]. split; [exact H4|].
  exact (proj1 (proj2 (proj1
    (page_is_served_when_in_range "Alice" 2 1 twoRecords H1 H2 H3) H4))).
Defined.

(** ** One request on its own *)

Lemma complete_fetch_outcome apify req cache term pageNo size :
  method req = "GET" → validate req = inr (term, pageNo, size) →
  cache_get cache (toLowerCase term) = Missing →
  let '(res, cache', asked) :=
    complete apify (fetch term (toLowerCase term) pageNo size) cache in
  Outcome apify req cache res cache' asked.
Proof.
  intros Hm Hv Hmiss. unfold fetch. cbn [complete].
  destruct (call apify _) as [[[[datasetId|]]|]|error] eqn:Hcall; cbn.
  - destruct (String.eqb_spec datasetId "") as [->|Hid]; cbn.
    + by eapply EndsNoDataset.
    + destruct (listItems apify _ _ _) as [[[[|item rest]|]]|error] eqn:Hlist; cbn.
      * by eapply EndsNoItems.
      * by eapply EndsFetched.
      * by eapply EndsNoItems.
      * by eapply EndsListRejected.
  - by eapply EndsNoDataset.
  - by eapply EndsNoDataset.
  - by eapply EndsCallRejected.
Qed.

(** However a request ends, it ends in one of the ways of [Outcome]. *)
Lemma serveRequest_outcome apify req cache :
  Outcome apify req cache
    (serveRequest apify req cache).1.1
    (serveRequest apify req cache).1.2
    (serveRequest apify req cache).2.
Proof.
  destruct (decide (method req = "GET")) as [Hm|Hm].
  2:{ rewrite (serveRequest_respond _ _ _ _ (handler_not_get _ cache Hm)).
      by apply EndsNotGet. }
  rewrite (serveRequest_get _ _ _ Hm).
  destruct (validate req) as [res|[[term pageNo] size]] eqn:Hv.
  { destruct (validate_rejects _ _ Hv) as [error ->]. by apply EndsInvalid. }
  destruct (cache_get cache (toLowerCase term)) as [fullData| |] eqn:Hget.
  - apply cache_get_cached in Hget. by eapply EndsHit.
  - by eapply EndsInherited.
  - pose proof (complete_fetch_outcome apify req cache term pageNo size Hm Hv Hget) as H.
    by destruct (complete apify _ cache) as [[res cache'] asked].
Qed.

Lemma serveRequest_ends apify req cache res cache' asked :
  serveRequest apify req cache = (res, cache', asked) →
  Outcome apify req cache res cache' asked.
Proof.
  intros H. pose proof (serveRequest_outcome apify req cache) as Hout.
  by rewrite H in Hout.
Qed.

Lemma serve_shape term pageNo size fullData :
  (status (serve term pageNo size fullData) = 404 ∧
   ∃ error, body (serve term pageNo size fullData) = ErrorBody error) ∨
  (status (serve term pageNo size fullData) = 200 ∧
   body (serve term pageNo size fullData) =
   PageBody
     (List.map project (paginate (rank (toLowerCase term) fullData) pageNo size))
     (Z.of_nat (List.length fullData)) pageNo MAX_PAGES).
Proof.
  destruct (serve_cases term pageNo size fullData) as [[_ ->]|[_ ->]]; cbn; eauto.
Qed.

Lemma catch_shape error :
  status (catch error) ∈ [401; 500; 504] ∧ ∃ text, body (catch error) = ErrorBody text.
Proof.
  unfold catch. repeat case_match; cbn; split; eauto;
    rewrite !elem_of_cons; auto.
Qed.

(** X7.  Whatever the request, the cache and the client, the status of the
    response is one of 200, 400, 401, 404, 405, 500, 502 and 504; a 200
    response carries a page, and every other response carries an error
    message. *)
Theorem response_statuses apify req cache :
  status (serveRequest apify req cache).1.1
    ∈ [200; 400; 401; 404; 405; 500; 502; 504] ∧
  match body (serveRequest apify req cache).1.1 with
  | PageBody _ _ _ _ => status (serveRequest apify req cache).1.1 = 200
  | ErrorBody _ => status (serveRequest apify req cache).1.1 ≠ 200
  end.
Proof.
  assert (∀ term pageNo size fullData,
    status (serve term pageNo size fullData) ∈ [200; 400; 401; 404; 405; 500; 502; 504] ∧
    match body (serve term pageNo size fullData) with
    | PageBody _ _ _ _ => status (serve term pageNo size fullData) = 200
    | ErrorBody _ => status (serve term pageNo size fullData) ≠ 200
    end) as Hserve.
  { intros term pageNo size fullData.
    destruct (serve_shape term pageNo size fullData) as [[-> [error ->]]|[-> ->]];
      (split; [rewrite !elem_of_cons; auto|done]). }
  assert (∀ error,
    status (catch error) ∈ [200; 400; 401; 404; 405; 500; 502; 504] ∧
    match body (catch error) with
    | PageBody _ _ _ _ => status (catch error) = 200
    | ErrorBody _ => status (catch error) ≠ 200
    end) as Hcatch.
  { intros error. destruct (catch_shape error) as [Hin [text ->]].
    rewrite !elem_of_cons, elem_of_nil in Hin. rewrite !elem_of_cons.
    destruct Hin as [Hs|[Hs|[Hs|[]]]]; rewrite Hs; split; auto 10; lia. }
  destruct (serveRequest_outcome apify req cache); auto;
    cbn; (split; [rewrite !elem_of_cons; auto 10|done]).
Qed.

(** ** Validation *)

Lemma numbers_invalid req (term : string) res :
  (let pageInt := pageInt req in
   let limitInt := limitInt req in
   if isNaN pageInt || lt pageInt 1 then
     inl (fail 400 (invalidParameter "page"))
   else if isNaN limitInt || lt limitInt 1 then
     inl (fail 400 (invalidParameter "limit"))
   else if gt pageInt MAX_PAGES then
     inl (fail 400 ("Page " +:+ toString pageInt +:+ " exceeds the maximum of "
                    +:+ toString MAX_PAGES +:+ " pages."))
   else inr (term, pageInt, limitInt)) = inl res →
  InvalidParameters req.
Proof.
  cbv zeta. rewrite pageInt_requested, limitInt_requested.
  pose proof small_bounds as [Hone Hseven]. unfold MAX_PAGES.
  destruct (requestedPage req) as [pageNo|] eqn:Hpage.
  2:{ intros _. apply BadPage. rewrite Hpage. by intros (k & ? & _). }
  cbn [from_option]. rewrite toNumber_not_NaN, lt_toNumber by lia. cbn [orb].
  destruct (Z.ltb_spec pageNo 1).
  { intros _. apply BadPage. rewrite Hpage. intros (k & [= <-] & ?). lia. }
  destruct (requestedLimit req) as [size|] eqn:Hlimit.
  2:{ intros _. apply BadLimit. rewrite Hlimit. by intros (k & ? & _). }
  cbn [from_option]. rewrite toNumber_not_NaN, lt_toNumber by lia. cbn [orb].
  destruct (Z.ltb_spec size 1).
  { intros _. apply BadLimit. rewrite Hlimit. intros (k & [= <-] & ?). lia. }
  rewrite gt_toNumber by lia.
  destruct (Z.ltb_spec 7 pageNo); [|done].
  intros _. apply (PageBeyondMax req pageNo); [done|unfold MAX_PAGES; lia].
Qed.

(** The validation turns down only requests whose parameters are
    invalid. *)
Lemma validate_inl_invalid req res : validate req = inl res → InvalidParameters req.
Proof.
  unfold validate. intros H.
  destruct (query req) as [term|] eqn:Hq; [|by apply QueryAbsent; rewrite Hq].
  destruct (String.eqb_spec term "") as [->|Hne];
    [by apply QueryAbsent; rewrite Hq|].
  destruct (String.eqb_spec term "*") as [->|Hnw]; [by apply QueryWildcard|].
  cbn [orb] in H.
  destruct (platform req) as [p|] eqn:Hp;
    [|exact (numbers_invalid _ _ _ H)].
  change (truthy (Some p)) with (negb (String.eqb p "")) in H.
  change (default "" (Some p)) with p in H.
  destruct (String.eqb_spec p "") as [->|Hpne];
    [exact (numbers_invalid _ _ _ H)|].
  destruct (String.eqb_spec (toLowerCase p) "instagram") as [Hi|Hi];
    [exact (numbers_invalid _ _ _ H)|].
  by eapply WrongPlatform.
Qed.

(** X8.  A GET request is answered 400 exactly when its parameters are
    invalid: no other path of the handler answers 400, and no invalid
    request gets past the validation. *)
Theorem status_400_iff_invalid apify req cache :
  method req = "GET" →
  (status (serveRequest apify req cache).1.1 = 400 ↔ InvalidParameters req).
Proof.
  intros Hm. split.
  - intros H400.
    destruct (serveRequest apify req cache) as [[res cache'] asked] eqn:Hserve.
    apply serveRequest_ends in Hserve. cbn in H400.
    destruct Hserve; try done; try (by eapply validate_inl_invalid); exfalso.
    all: match type of H400 with
         | status (serve ?t ?p ?s ?d) = _ =>
             destruct (serve_shape t p s d) as [[Hs _]|[Hs _]]; lia
         | status (catch ?e) = _ =>
             destruct (catch_shape e) as [Hin _];
             rewrite !elem_of_cons, elem_of_nil in Hin; lia
         end.
  - intros [error Hv]%invalid_validate.
    by rewrite (serveRequest_get _ _ _ Hm), Hv.
Qed.

Lemma status_400_iff_invalid_witness :
  method (get "alice" (Some "0") None) = "GET" ∧
  (status (serveRequest (listing twoRecords) (get "alice" (Some "0") None) ∅).1.1 = 400
   ↔ InvalidParameters (get "alice" (Some "0") None)).
Proof.
  split; [reflexivity|].
  exact (status_400_iff_invalid (listing twoRecords) (get "alice" (Some "0") None) ∅ eq_refl).
Defined.

(** ** What a request asks of the client *)

(** X9.  A request asks nothing of the Apify client unless it is a GET
    request that passes the validation and whose lower-cased query is
    neither cached nor an inherited name, and then it does ask: it calls
    the actor, once and first, for the query as it was typed and seven
    times the limit it read (a Number: the product is rounded, and it is
    [Infinity] when the limit is) from offset 0; and it lists the dataset
    of the run, once, with the same limit and offset 0, exactly when the
    call is fulfilled with a run that names a dataset.  There is no
    retry.  On the server, whatever else is in progress, the arrival of
    such a request logs that one call under its ticket, and the arrival of
    any other request logs nothing. *)
Theorem client_is_asked_once_on_a_miss apify req cache :
  ((serveRequest apify req cache).2 = [] ↔
   ¬ (method req = "GET" ∧
      ∃ term pageNo size,
        validate req = inr (term, pageNo, size) ∧
        cache_get cache (toLowerCase term) = Missing)) ∧
  (∀ term pageNo size,
     method req = "GET" → validate req = inr (term, pageNo, size) →
     cache_get cache (toLowerCase term) = Missing →
     (∃ requested, requestedLimit req = Some requested ∧ size = toNumber requested) ∧
     match call apify {| search := term; searchType := "user";
                         searchLimit := mul (Finite 7) size; offset := Finite 0 |} with
     | Fulfilled (Some {| defaultDatasetId := Some datasetId |}) =>
         if String.eqb datasetId "" then
           (serveRequest apify req cache).2
           = [Called {| search := term; searchType := "user";
                        searchLimit := mul (Finite 7) size; offset := Finite 0 |}]
         else
           (serveRequest apify req cache).2
           = [Called {| search := term; searchType := "user";
                        searchLimit := mul (Finite 7) size; offset := Finite 0 |};
              Listed datasetId (mul (Finite 7) size) (Finite 0)]
     | _ =>
         (serveRequest apify req cache).2
         = [Called {| search := term; searchType := "user";
                      searchLimit := mul (Finite 7) size; offset := Finite 0 |}]
     end) ∧
  (∀ s,
     (∀ term pageNo size,
        method req = "GET" → validate req = inr (term, pageNo, size) →
        cache_get (fullSearchCache s) (toLowerCase term) = Missing →
        invocations (step s (Arrive req))
        = invocations s
            ++ [(nextTicket s,
                 Called {| search := term; searchType := "user";
                           searchLimit := mul (Finite 7) size; offset := Finite 0 |})]) ∧
     (¬ (method req = "GET" ∧
         ∃ term pageNo size,
           validate req = inr (term, pageNo, size) ∧
           cache_get (fullSearchCache s) (toLowerCase term) = Missing) →
      invocations (step s (Arrive req)) = invocations s)).
Proof.
  split; [|split].
  3:{ intros s. split.
      - intros term pageNo size Hm Hv Hmiss. cbn [step].
        by rewrite (handler_get _ _ Hm), Hv, Hmiss.
      - intros Hnot. cbn [step].
        destruct (decide (method req = "GET")) as [Hm|Hm];
          [|by rewrite handler_not_get].
        rewrite (handler_get _ _ Hm).
        destruct (validate req) as [res|[[term pageNo] size]] eqn:Hv; [done|].
        destruct (cache_get (fullSearchCache s) (toLowerCase term)) eqn:Hget;
          [done|done|].
        exfalso. apply Hnot. eauto 10. }
  - split.
    + intros Hnil (Hm & term & pageNo & size & Hv & Hmiss).
      rewrite (serveRequest_get _ _ _ Hm), Hv, Hmiss in Hnil.
      destruct (complete_fetch_asked apify term (toLowerCase term) pageNo size cache)
        as [rest Hrest].
      by rewrite Hrest in Hnil.
    + intros Hnot.
      destruct (serveRequest_outcome apify req cache); try done;
        exfalso; apply Hnot; eauto 10.
  - intros term pageNo size Hm Hv Hmiss. split.
    { apply validate_accepts in Hv as (_ & _ & _ & _ & _ & (l & ? & ? & _)). eauto. }
    rewrite (serveRequest_get _ _ _ Hm), Hv, Hmiss. unfold fetch.
    change (actorInput term (MAX_PAGES * size)%num)
      with {| search := term; searchType := "user";
              searchLimit := mul (Finite 7) size; offset := Finite 0 |}.
    change (MAX_PAGES * size)%num with (mul (Finite 7) size).
    cbn [complete].
    destruct (call apify _) as [[[[datasetId|]]|]|error]; try done.
    destruct (String.eqb datasetId ""); [done|]. cbn [complete].
    by destruct (listItems apify datasetId _ _) as [[[[|item rest]|]]|error].
Qed.

Lemma client_is_asked_once_on_a_miss_witness :
  method secondPage = "GET" ∧
  validate secondPage = inr ("Alice", Finite 2, Finite 1) ∧
  cache_get ∅ (toLowerCase "Alice") = Missing ∧
  (serveRequest (listing twoRecords) secondPage ∅).2
    = [Called {| search := "Alice"; searchType := "user";
                 searchLimit := Finite 7; offset := Finite 0 |};
       Listed "dataset" (Finite 7) (Finite 0)].
Proof.
  assert (method secondPage = "GET") as Hm by reflexivity.
  assert (validate secondPage = inr ("Alice", Finite 2, Finite 1)) as Hv by by vm_compute.
  assert (cache_get ∅ (toLowerCase "Alice") = Missing) as Hc by reflexivity.
  split; [exact Hm|]. split; [exact Hv|]. split; [exact Hc|].
  exact (proj2 (proj1 (proj2 (client_is_asked_once_on_a_miss (listing twoRecords)
                                secondPage ∅))
                  "Alice" (Finite 2) (Finite 1) Hm Hv Hc)).
Defined.

(** ** When the cache is written *)

Lemma fetch_waiting term key pageNo size : waiting (fetch term key pageNo size).
Proof.
  unfold fetch. cbn. intros [[[[datasetId|]]|]|error]; try done.
  destruct (String.eqb datasetId ""); [done|].
  intros [[[[|item rest]|]]|error]; eauto.
Qed.

(** In its first segment the handler answers or begins a fetch. *)
Lemma handler_first_segment req cache :
  (∃ res, handler req cache = Respond res) ∨
  (∃ term key pageNo size, handler req cache = fetch term key pageNo size).
Proof.
  unfold handler. destruct (negb _); [eauto|].
  destruct (validate req) as [res|[[term pageNo] size]]; [eauto|].
  destruct (cache_get cache (toLowerCase term)); eauto 10.
Qed.

Lemma listingWrites_cases resume listed :
  listingWrites resume →
  (∃ res, resume listed = Respond res) ∨
  (∃ cacheKey fullData res, resume listed = Store cacheKey fullData (Respond res)).
Proof.
  intros H. specialize (H listed).
  destruct listed as [[[[|item rest]|]]|error]; destruct H as (? & H); eauto.
Qed.

Lemma step_waiting s ev :
  map_Forall (λ _ task, waiting task) (suspended s) →
  map_Forall (λ _ task, waiting task) (suspended (step s ev)).
Proof.
  intros Hs. destruct ev as [req|n called|n listed]; cbn [step].
  - destruct (handler_first_segment req (fullSearchCache s))
      as [[res ->]|(term & key & pageNo & size & ->)]; [done|].
    unfold fetch. cbn. apply map_Forall_insert_2; [|done].
    apply (fetch_waiting term key pageNo size).
  - destruct (suspended s !! n) as [[| |input resume|]|] eqn:Hn; try done.
    pose proof (Hs _ _ Hn called) as Hnext.
    destruct (resume called) as [res| | |datasetId total start resume']; try done; cbn.
    + by apply map_Forall_delete.
    + apply map_Forall_insert_2; [done|]. by apply map_Forall_delete.
  - destruct (suspended s !! n) as [[| | |datasetId total start resume]|] eqn:Hn;
      try done.
    destruct (listingWrites_cases resume listed (Hs _ _ Hn))
      as [[res ->]|(key & fullData & res & ->)];
      cbn; by apply map_Forall_delete.
Qed.

Lemma run_waiting evs : map_Forall (λ _ task, waiting task) (suspended (run boot evs)).
Proof.
  induction evs as [|ev evs IH] using rev_ind; [apply map_Forall_empty|].
  rewrite run_app. cbn. by apply step_waiting.
Qed.

(** X10.  However requests arrive and settle, the cache is written exactly
    when the listing that a suspended request waits for is fulfilled with
    at least one item: one entry is then set to the items listed, be its
    key new or already written by another request.  The arrival of a
    request, the settling of an actor call and every other settling of a
    listing leave the cache as it is, and no entry is ever removed. *)
Theorem cache_is_written_when_a_listing_settles evs ev :
  (∀ key, is_Some (fullSearchCache (run boot evs) !! key) →
          is_Some (fullSearchCache (step (run boot evs) ev) !! key)) ∧
  match ev with
  | Arrive _ | CallSettles _ _ =>
      fullSearchCache (step (run boot evs) ev) = fullSearchCache (run boot evs)
  | ListSettles n listed =>
      match suspended (run boot evs) !! n, listed with
      | Some (AwaitListItems _ _ _ _), Fulfilled {| items := Some (item :: rest) |} =>
          ∃ cacheKey,
            fullSearchCache (step (run boot evs) ev)
            = <[cacheKey := item :: rest]> (fullSearchCache (run boot evs))
      | _, _ =>
          fullSearchCache (step (run boot evs) ev) = fullSearchCache (run boot evs)
      end
  end.
Proof.
  pose proof (run_waiting evs) as Hs. set (s := run boot evs) in *.
  split; [intros key; apply step_cached|].
  destruct ev as [req|n called|n listed]; cbn [step].
  - destruct (handler_first_segment req (fullSearchCache s))
      as [[res ->]|(term & key & pageNo & size & ->)]; done.
  - destruct (suspended s !! n) as [[| |input resume|]|] eqn:Hn; try done.
    pose proof (Hs _ _ Hn called) as Hnext.
    by destruct (resume called).
  - destruct (suspended s !! n) as [[| | |datasetId total start resume]|] eqn:Hn;
      try by repeat case_match.
    pose proof (Hs _ _ Hn listed) as Hnext.
    destruct listed as [[[[|item rest]|]]|error];
      destruct Hnext as (? & Hnext); try (by rewrite Hnext).
    destruct Hnext as [res ->]. eauto.
Qed.

Lemma cache_is_written_when_a_listing_settles_witness :
  fullSearchCache (run boot [Arrive (get "Alice" None None);
     CallSettles 0 (Fulfilled (Some {| defaultDatasetId := Some "dataset" |}))]) = ∅ ∧
  ∃ cacheKey,
    fullSearchCache (run boot firstFetch) = <[cacheKey := twoRecords]> ∅.
Proof.
  split; [by vm_compute|].
  exact (proj2 (cache_is_written_when_a_listing_settles
    [Arrive (get "Alice" None None);
     CallSettles 0 (Fulfilled (Some {| defaultDatasetId := Some "dataset" |}))]
    (ListSettles 0 (Fulfilled {| items := Some twoRecords |})))).
Defined.

(** ** The profiles of a page *)

Lemma paginate_sublist orderedData pageNo size :
  paginate orderedData pageNo size `sublist_of` orderedData.
Proof.
  unfold paginate, slice. etrans; [apply sublist_take|apply sublist_drop].
Qed.

Lemma rank_elem_of q fullData item : item ∈ rank q fullData → item ∈ fullData.
Proof. intros Hin. eapply elem_of_submseteq; [exact Hin|apply rank_submseteq]. Qed.

(** A page is never longer than the limit the request stands for, though
    the handler may have rounded it. *)
Lemma paginate_length_le orderedData pageNo requested :
  1 ≤ pageNo ≤ MAX_PAGES → 1 ≤ requested →
  Z.of_nat (List.length (paginate orderedData (Finite pageNo) (toNumber requested)))
    ≤ requested.
Proof.
  intros Hpage Hsize. pose proof small_bounds as [_ Hseven]. unfold MAX_PAGES in Hpage.
  destruct (decide (requested ≤ 2 ^ 53)).
  - rewrite toNumber_exact, paginate_finite by lia. rewrite length_take. lia.
  - destruct (toNumber_large requested ltac:(lia)) as [->|(m & -> & Hm)].
    + rewrite paginate_infinite by lia. cbn [List.length]. lia.
    + rewrite paginate_finite by lia.
      rewrite length_take, length_drop, length_take. lia.
Qed.

Lemma serve_profiles term pageNo requested fullData profiles total cur tot :
  1 ≤ pageNo ≤ MAX_PAGES → 1 ≤ requested →
  body (serve term (Finite pageNo) (toNumber requested) fullData)
    = PageBody profiles total cur tot →
  (1 ≤ List.length profiles)%nat ∧
  Z.of_nat (List.length profiles) ≤ requested ∧
  Z.of_nat (List.length profiles) ≤ Z.of_nat (List.length fullData) ∧
  total = Finite (Z.of_nat (List.length fullData)) ∧
  ∀ profile, profile ∈ profiles → ∃ item, item ∈ fullData ∧ profile = project item.
Proof.
  intros Hpage Hsize Hbody.
  destruct (serve_cases term pageNo (toNumber requested) fullData)
    as [[_ Heq]|[Hne Heq]];
    rewrite Heq in Hbody; [done|]. cbn in Hbody.
  injection Hbody as Hp Ht Hc Htot. subst profiles total cur tot.
  pose proof (paginate_length_le (rank (toLowerCase term) fullData) pageNo requested
                Hpage Hsize) as Hlen.
  set (items := paginate (rank (toLowerCase term) fullData) pageNo (toNumber requested))
    in *.
  pose proof (sublist_length _ _
    (paginate_sublist (rank (toLowerCase term) fullData) pageNo (toNumber requested)))
    as Hsub. fold items in Hsub.
  pose proof (rank_length_le (toLowerCase term) fullData) as Hrank.
  rewrite length_map.
  split; [destruct items; [done|cbn; lia]|].
  split; [lia|]. split; [lia|]. split; [done|].
  intros profile Hin. apply list_elem_of_In, in_map_iff in Hin as (item & <- & Hin).
  exists item. split; [|done].
  apply rank_elem_of with (q := toLowerCase term).
  eapply elem_of_sublist; [by apply list_elem_of_In|apply paginate_sublist].
Qed.

(** X12.  A page that is served holds at least one profile and at most
    [limit] of them, never more than [total], which is the size of the
    dataset cached for the query; and every profile is the projection of a
    record of that dataset: the handler invents none. *)
Theorem profiles_come_from_the_dataset apify req cache profiles total cur tot :
  body (serveRequest apify req cache).1.1 = PageBody profiles total cur tot →
  ∃ term size fullData,
    query req = Some term ∧ requestedLimit req = Some size ∧
    (serveRequest apify req cache).1.2 !! toLowerCase term = Some fullData ∧
    (1 ≤ List.length profiles)%nat ∧
    Z.of_nat (List.length profiles) ≤ size ∧
    Z.of_nat (List.length profiles) ≤ Z.of_nat (List.length fullData) ∧
    total = Finite (Z.of_nat (List.length fullData)) ∧
    ∀ profile, profile ∈ profiles → ∃ item, item ∈ fullData ∧ profile = project item.
Proof.
  intros Hbody.
  destruct (serveRequest_outcome apify req cache)
    as [| |term pageNo size fullData Hm Hv Hhit|term pageNo size Hm Hv Hin
       |term pageNo size error| |term pageNo size datasetId error|
       |term pageNo size datasetId fullData Hm Hv Hmiss _ _ _ _]; try done;
    try (by destruct (catch_shape error) as [_ [text Htext]]; rewrite Htext in Hbody).
  - pose proof (validate_accepts _ _ _ _ Hv)
      as (Hq & _ & _ & _ & (p & _ & -> & Hp) & (l & Hl & -> & Hs)).
    exists term, l, fullData. do 3 (split; [done|]).
    exact (serve_profiles _ _ _ _ _ _ _ _ Hp Hs Hbody).
  - pose proof (validate_accepts _ _ _ _ Hv)
      as (Hq & _ & _ & _ & (p & _ & -> & Hp) & (l & Hl & -> & Hs)).
    exists term, l, fullData. do 2 (split; [done|]).
    split; [apply lookup_insert_eq|].
    exact (serve_profiles _ _ _ _ _ _ _ _ Hp Hs Hbody).
Qed.

Lemma profiles_come_from_the_dataset_witness :
  body (serveRequest (listing twoRecords) secondPage ∅).1.1
    = PageBody [project (named "alice_w")] 2 2 7 ∧
  ∃ term size fullData,
    query secondPage = Some term ∧ requestedLimit secondPage = Some size ∧
    (serveRequest (listing twoRecords) secondPage ∅).1.2 !! toLowerCase term
      = Some fullData ∧
    (1 ≤ List.length [project (named "alice_w")])%nat ∧
    Z.of_nat (List.length [project (named "alice_w")]) ≤ size ∧
    Z.of_nat (List.length [project (named "alice_w")]) ≤ Z.of_nat (List.length fullData) ∧
    Finite 2 = Finite (Z.of_nat (List.length fullData)) ∧
    ∀ profile, profile ∈ [project (named "alice_w")] →
               ∃ item, item ∈ fullData ∧ profile = project item.
Proof.
  assert (body (serveRequest (listing twoRecords) secondPage ∅).1.1
    = PageBody [project (named "alice_w")] 2 2 7) as H by by vm_compute.
  split; [exact H|].
  exact (profiles_come_from_the_dataset (listing twoRecords) secondPage ∅ _ _ _ _ H).
Defined.

(** ** The keys of the cache *)

Lemma lowerChar_idempotent c : lowerChar (lowerChar c) = lowerChar c.
Proof. by destruct c as [[] [] [] [] [] [] [] []]. Qed.

Lemma toLowerCase_idempotent s : toLowerCase (toLowerCase s) = toLowerCase s.
Proof.
  induction s as [|c s IH]; cbn; [done|]. by rewrite lowerChar_idempotent, IH.
Qed.

Lemma toLowerCase_empty s : toLowerCase s = "" → s = "".
Proof. by destruct s. Qed.

Lemma toLowerCase_wildcard s : toLowerCase s = "*" → s = "*".
Proof.
  destruct s as [|c [|d s]]; cbn; try done.
  intros [= Hc]. f_equal. by destruct c as [[] [] [] [] [] [] [] []].
Qed.

Section Kept.

Variable ok : string → list RawRecord → Prop.
Hypothesis handler_ok : ∀ req cache, map_Forall ok cache → storesOnly ok (handler req cache).

Lemma advance_kept n task s :
  storesOnly ok task → kept ok s → kept ok (advance n task s).
Proof.
  revert s. induction task as [res|key d next IH|input resume _|id l o resume _];
    intros s Htask [Hcache Hsus]; cbn.
  - done.
  - destruct Htask as [Hd Hnext]. apply IH; [done|]. split; cbn; [|done].
    by apply map_Forall_insert_2.
  - split; cbn; [done|]. by apply map_Forall_insert_2.
  - split; cbn; [done|]. by apply map_Forall_insert_2.
Qed.

Lemma step_kept s ev : kept ok s → kept ok (step s ev).
Proof.
  intros Hs.
  assert (kept ok (wake (match ev with
                         | Arrive _ => 0%nat
                         | CallSettles n _ | ListSettles n _ => n
                         end) s)) as Hwake.
  { destruct Hs as [Hcache Hsus]. split; cbn; [done|]. by apply map_Forall_delete. }
  destruct ev as [req|n called|n listed]; cbn.
  - apply advance_kept; [apply handler_ok, Hs|done].
  - destruct (suspended s !! n) as [[| |input resume|]|] eqn:Hn; try done.
    apply advance_kept; [|done]. apply (proj2 Hs) in Hn. apply Hn.
  - destruct (suspended s !! n) as [[| | |id l o resume]|] eqn:Hn; try done.
    apply advance_kept; [|done]. apply (proj2 Hs) in Hn. apply Hn.
Qed.

Lemma run_kept s evs : kept ok s → kept ok (run s evs).
Proof.
  revert s. induction evs as [|ev evs IH]; intros s Hs; [done|].
  cbn. by apply IH, step_kept.
Qed.

End Kept.

Lemma handler_entryOk req cache :
  map_Forall entryOk cache → storesOnly entryOk (handler req cache).
Proof.
  intros _. unfold handler. destruct (negb _); [done|].
  destruct (validate req) as [res|[[term pageNo] size]] eqn:Hv; [done|].
  destruct (cache_get cache (toLowerCase term)) eqn:Hget; try done.
  apply validate_accepts in Hv as (_ & Hne & Hnw & _).
  assert (∀ fullData, fullData ≠ [] → entryOk (toLowerCase term) fullData) as Hok.
  { intros fullData Hd. unfold entryOk. split; [apply toLowerCase_idempotent|].
    split; [|split; [|split; [|done]]].
    - unfold cache_get in Hget. destruct (cache !! toLowerCase term); [done|].
      by destruct (inheritedKey (toLowerCase term)).
    - by intros ?%toLowerCase_empty.
    - by intros ?%toLowerCase_wildcard. }
  unfold fetch. cbn. intros [[[[datasetId|]]|]|error]; cbn; try done.
  destruct (String.eqb datasetId ""); cbn; [done|].
  intros [[[[|item rest]|]]|error]; cbn; try done. split; [by apply Hok|done].
Qed.

Lemma boot_kept ok : kept ok boot.
Proof. split; cbn; apply map_Forall_empty. Qed.

(** X13.  However requests arrive and settle, every key of the cache is a
    lower-cased query: it is lower-case, it is neither empty nor the
    wildcard, and it is none of the names [constructor] and [__proto__]
    that the cache object inherits, so no write ever touches the prototype
    of the cache. *)
Theorem cache_keys_are_lower_cased_queries evs key fullData :
  fullSearchCache (run boot evs) !! key = Some fullData →
  toLowerCase key = key ∧ inheritedKey key = false ∧ key ≠ "" ∧ key ≠ "*".
Proof.
  intros Hkey.
  destruct (run_kept entryOk handler_entryOk boot evs (boot_kept _)) as [Hcache _].
  apply Hcache in Hkey as (? & ? & ? & ? & _). done.
Qed.

Lemma cache_keys_are_lower_cased_queries_witness :
  fullSearchCache (run boot firstFetch) !! "alice" = Some twoRecords ∧
  toLowerCase "alice" = "alice" ∧ inheritedKey "alice" = false ∧
  "alice" ≠ "" ∧ "alice" ≠ "*".
Proof.
  assert (fullSearchCache (run boot firstFetch) !! "alice" = Some twoRecords) as H
    by reflexivity.
  split; [exact H|].
  exact (cache_keys_are_lower_cased_queries firstFetch "alice" twoRecords H).
Defined.

(** X14.  A valid request whose lower-cased query is [constructor] or
    [__proto__] is answered 500 on arrival, in every state the server can
    reach: the lookup finds the property the cache object inherits, which
    is not an array.  Nothing is asked of the client, nothing is cached,
    and the request is not suspended. *)
Theorem inherited_names_are_answered_500 evs req term pageNo size :
  method req = "GET" → validate req = inr (term, pageNo, size) →
  inheritedKey (toLowerCase term) = true →
  ∃ res,
    status res = 500 ∧
    sent (step (run boot evs) (Arrive req))
      = sent (run boot evs) ++ [(nextTicket (run boot evs), res)] ∧
    invocations (step (run boot evs) (Arrive req)) = invocations (run boot evs) ∧
    suspended (step (run boot evs) (Arrive req)) = suspended (run boot evs) ∧
    fullSearchCache (step (run boot evs) (Arrive req)) = fullSearchCache (run boot evs).
Proof.
  intros Hm Hv Hin. exists (catch notAFunction). split; [done|].
  assert (cache_get (fullSearchCache (run boot evs)) (toLowerCase term) = Inherited)
    as Hget.
  { unfold cache_get.
    destruct (fullSearchCache (run boot evs) !! toLowerCase term) as [fullData|] eqn:Hkey;
      [|by rewrite Hin].
    destruct (run_kept entryOk handler_entryOk boot evs (boot_kept _)) as [Hcache _].
    apply Hcache in Hkey as (_ & Hnot & _). congruence. }
  cbn [step]. by rewrite (handler_get _ _ Hm), Hv, Hget.
Qed.

Lemma inherited_names_are_answered_500_witness :
  method (get "Constructor" None None) = "GET" ∧
  validate (get "Constructor" None None) = inr ("Constructor", Finite 1, Finite 5) ∧
  inheritedKey (toLowerCase "Constructor") = true ∧
  ∃ res,
    status res = 500 ∧
    sent (step (run boot firstFetch) (Arrive (get "Constructor" None None)))
      = sent (run boot firstFetch) ++ [(nextTicket (run boot firstFetch), res)] ∧
    invocations (step (run boot firstFetch) (Arrive (get "Constructor" None None)))
      = invocations (run boot firstFetch).
Proof.
  split; [reflexivity|]. split; [reflexivity|]. split; [reflexivity|].
  destruct (inherited_names_are_answered_500 firstFetch (get "Constructor" None None)
              "Constructor" 1 5 eq_refl eq_refl eq_refl)
    as (res & Hs & Hsent & Hinv & _).
  exists res. split; [exact Hs|]. split; [exact Hsent|exact Hinv].
Defined.

(** ** Two requests for one query that is not cached *)

Lemma arrive_miss s req term pageNo size :
  method req = "GET" → validate req = inr (term, pageNo, size) →
  cache_get (fullSearchCache s) (toLowerCase term) = Missing →
  step s (Arrive req) =
  {| fullSearchCache := fullSearchCache s; nextTicket := S (nextTicket s);
     suspended := <[nextTicket s := fetch term (toLowerCase term) pageNo size]> (suspended s);
     invocations := invocations s
                      ++ [(nextTicket s, Called (actorInput term (MAX_PAGES * size)%num))];
     sent := sent s |}.
Proof.
  intros Hm Hv Hmiss. cbn [step]. by rewrite (handler_get _ _ Hm), Hv, Hmiss.
Qed.

Lemma fetch_resumes s n term key pageNo size datasetId fullData :
  suspended s !! n = Some (fetch term key pageNo size) →
  datasetId ≠ "" → fullData ≠ [] →
  ∃ waiting,
    step s (CallSettles n (Fulfilled (Some {| defaultDatasetId := Some datasetId |})))
    = {| fullSearchCache := fullSearchCache s; nextTicket := nextTicket s;
         suspended := <[n := waiting]> (delete n (suspended s));
         invocations := invocations s ++ [(n, Listed datasetId (MAX_PAGES * size)%num 0)];
         sent := sent s |} ∧
    ∀ s', suspended s' !! n = Some waiting →
      step s' (ListSettles n (Fulfilled {| items := Some fullData |}))
      = {| fullSearchCache := <[key := fullData]> (fullSearchCache s');
           nextTicket := nextTicket s';
           suspended := delete n (suspended s');
           invocations := invocations s';
           sent := sent s' ++ [(n, serve term pageNo size fullData)] |}.
Proof.
  intros Hn Hid Hd. unfold fetch in *. cbn [step]. rewrite Hn. cbn.
  destruct (String.eqb_spec datasetId ""); [done|]. cbn.
  eexists. split; [reflexivity|].
  intros s' Hn'. rewrite Hn'. cbn. by destruct fullData.
Qed.

(** X15.  Two valid requests for the same query, in any case of its
    letters, that arrive while the query is not cached each call the
    actor: the second does not wait for the first.  When their calls and
    listings settle one after the other, each is answered from the dataset
    its own listing returned, and the cache keeps the dataset that was
    written last. *)
Theorem concurrent_misses_fetch_twice
    s req1 req2 term1 term2 page1 page2 size1 size2 id1 id2 data1 data2 :
  method req1 = "GET" → validate req1 = inr (term1, page1, size1) →
  method req2 = "GET" → validate req2 = inr (term2, page2, size2) →
  toLowerCase term2 = toLowerCase term1 →
  cache_get (fullSearchCache s) (toLowerCase term1) = Missing →
  id1 ≠ "" → id2 ≠ "" → data1 ≠ [] → data2 ≠ [] →
  invocations (run s [Arrive req1; Arrive req2])
    = invocations s
        ++ [(nextTicket s, Called (actorInput term1 (MAX_PAGES * size1)%num));
            (S (nextTicket s), Called (actorInput term2 (MAX_PAGES * size2)%num))] ∧
  fullSearchCache
    (run s [Arrive req1; Arrive req2;
            CallSettles (nextTicket s)
              (Fulfilled (Some {| defaultDatasetId := Some id1 |}));
            CallSettles (S (nextTicket s))
              (Fulfilled (Some {| defaultDatasetId := Some id2 |}));
            ListSettles (nextTicket s) (Fulfilled {| items := Some data1 |});
            ListSettles (S (nextTicket s)) (Fulfilled {| items := Some data2 |})])
    = <[toLowerCase term1 := data2]> (fullSearchCache s) ∧
  sent
    (run s [Arrive req1; Arrive req2;
            CallSettles (nextTicket s)
              (Fulfilled (Some {| defaultDatasetId := Some id1 |}));
            CallSettles (S (nextTicket s))
              (Fulfilled (Some {| defaultDatasetId := Some id2 |}));
            ListSettles (nextTicket s) (Fulfilled {| items := Some data1 |});
            ListSettles (S (nextTicket s)) (Fulfilled {| items := Some data2 |})])
    = sent s ++ [(nextTicket s, serve term1 page1 size1 data1);
                 (S (nextTicket s), serve term2 page2 size2 data2)].
Proof.
  intros Hm1 Hv1 Hm2 Hv2 Hterm Hmiss Hid1 Hid2 Hd1 Hd2.
  set (n := nextTicket s).
  cbn [run foldl].
  rewrite (arrive_miss s req1 term1 page1 size1 Hm1 Hv1 Hmiss). fold n.
  set (s1 := {| fullSearchCache := fullSearchCache s; nextTicket := S n |}).
  rewrite (arrive_miss s1 req2 term2 page2 size2 Hm2 Hv2) by (by rewrite Hterm).
  cbn [fullSearchCache nextTicket suspended invocations sent s1]. clear s1.
  split; [by rewrite <-app_assoc|].
  set (s2 := {| fullSearchCache := fullSearchCache s; nextTicket := S (S n) |}).
  destruct (fetch_resumes s2 n term1 (toLowerCase term1) page1 size1 id1 data1)
    as (waiting1 & -> & Hlist1); [|done|done|].
  { cbn. rewrite lookup_insert_ne by lia. apply lookup_insert_eq. }
  cbn [fullSearchCache nextTicket suspended invocations sent s2]. clear s2.
  set (s3 := {| fullSearchCache := fullSearchCache s; nextTicket := S (S n) |}).
  destruct (fetch_resumes s3 (S n) term2 (toLowerCase term2) page2 size2 id2 data2)
    as (waiting2 & -> & Hlist2); [|done|done|].
  { cbn. rewrite lookup_insert_ne, lookup_delete_ne by lia. apply lookup_insert_eq. }
  cbn [fullSearchCache nextTicket suspended invocations sent s3]. clear s3.
  rewrite Hlist1.
  2:{ cbn. rewrite lookup_insert_ne, lookup_delete_ne by lia. apply lookup_insert_eq. }
  cbn [fullSearchCache nextTicket suspended invocations sent].
  rewrite Hlist2.
  2:{ cbn. rewrite lookup_delete_ne by lia. apply lookup_insert_eq. }
  cbn [fullSearchCache nextTicket suspended invocations sent].
  rewrite Hterm, insert_insert_eq. split; [done|]. by rewrite <-app_assoc.
Qed.

Lemma concurrent_misses_fetch_twice_witness :
  validate (get "Alice" None None) = inr ("Alice", Finite 1, Finite 5) ∧
  validate secondPage = inr ("Alice", Finite 2, Finite 1) ∧
  cache_get (fullSearchCache boot) (toLowerCase "Alice") = Missing ∧
  fullSearchCache
    (run boot [Arrive (get "Alice" None None); Arrive secondPage;
            CallSettles (nextTicket boot)
              (Fulfilled (Some {| defaultDatasetId := Some "first" |}));
            CallSettles (S (nextTicket boot))
              (Fulfilled (Some {| defaultDatasetId := Some "second" |}));
            ListSettles (nextTicket boot) (Fulfilled {| items := Some twoRecords |});
            ListSettles (S (nextTicket boot))
              (Fulfilled {| items := Some [named "alice"] |})])
    = <[toLowerCase "Alice" := [named "alice"]]> (fullSearchCache boot).
Proof.
  split; [reflexivity|]. split; [reflexivity|]. split; [reflexivity|].
  refine (proj1 (proj2 (concurrent_misses_fetch_twice boot
    (get "Alice" None None) secondPage "Alice" "Alice" 1 2 5 1 "first" "second"
    twoRecords [named "alice"] eq_refl eq_refl eq_refl eq_refl eq_refl eq_refl
    _ _ _ _))); discriminate.
Defined.

(** ** What the pages can reach *)

(** X16.  A valid request sees only the first seven times [limit] records
    of the ranked order: for a page from 1 to [MAX_PAGES], the slice of the
    page is the slice of that prefix.  So when the dataset was fetched for
    a larger page size, a request with a smaller one cannot reach its
    tail.  (A limit that is read as [Infinity] reaches nothing: the slice
    is empty whatever the dataset.) *)
Theorem pages_reach_a_prefix orderedData pageNo size :
  1 ≤ pageNo ≤ MAX_PAGES → 1 ≤ size →
  paginate orderedData pageNo size =
  paginate (take (Z.to_nat (MAX_PAGES * size)) orderedData) pageNo size ∧
  ∀ other, paginate orderedData pageNo Infinity = paginate other pageNo Infinity.
Proof.
  unfold MAX_PAGES. intros Hpage Hsize. pose proof small_bounds as [_ Hseven].
  split.
  - rewrite !paginate_finite by lia.
    rewrite take_take, Nat.min_comm, <-take_take.
    generalize (take (Z.to_nat (2 ^ 53 - 1)) orderedData). intros reached.
    rewrite skipn_firstn_comm, take_take. f_equal. nia.
  - intros other. by rewrite !paginate_infinite by lia.
Qed.

Lemma pages_reach_a_prefix_witness :
  1 ≤ 2 ≤ MAX_PAGES ∧ 1 ≤ 1 ∧
  paginate twoRecords 2 1 = paginate (take (Z.to_nat (MAX_PAGES * 1)) twoRecords) 2 1.
Proof.
  assert (1 ≤ 2 ≤ MAX_PAGES) as H1 by (unfold MAX_PAGES; lia).
  assert (1 ≤ 1) as H2 by lia.
  split; [exact H1|]. split; [exact H2|].
  exact (proj1 (pages_reach_a_prefix twoRecords 2 1 H1 H2)).
Defined.

(** ** Lenient numbers *)

Lemma readDigits_trailing acc s c rest :
  digitValue c = None → readDigits acc (s +:+ String c rest) = readDigits acc s.
Proof.
  intros Hc. revert acc. induction s as [|d s IH]; intros acc.
  - change ("" +:+ String c rest) with (String c rest).
    cbn [readDigits]. by rewrite Hc.
  - change (String d s +:+ String c rest) with (String d (s +:+ String c rest)).
    cbn [readDigits]. destruct (digitValue d); [apply IH|done].
Qed.

Lemma trimStart_app s t : trimStart s ≠ "" → trimStart (s +:+ t) = trimStart s +:+ t.
Proof.
  induction s as [|c s IH]; [done|].
  change (String c s +:+ t) with (String c (s +:+ t)). cbn [trimStart].
  destruct (isWhiteSpace c); [exact IH|done].
Qed.

Lemma integerValue_trailing s c rest n :
  integerValue s = Some n → digitValue c = None →
  integerValue (s +:+ String c rest) = Some n.
Proof.
  unfold integerValue. intros Hs Hc.
  rewrite trimStart_app by (intros Ht; by rewrite Ht in Hs).
  destruct (trimStart s) as [|d t]; [done|]. rewrite <-Hs.
  change (String d t +:+ String c rest) with (String d (t +:+ String c rest)).
  destruct d as [[] [] [] [] [] [] [] []];
    first [exact (readDigits_trailing None (String _ t) c rest Hc)
          |by rewrite readDigits_trailing].
Qed.

(** X17.  [page] and [limit] are read leniently (lines 28-29): text that
    follows the number and does not begin with a digit is ignored, so a
    request whose [page] or [limit] is a number followed by such text is
    handled exactly as the request with the number alone. *)
Theorem text_after_the_number_is_ignored number c rest n req cache :
  integerValue number = Some n → digitValue c = None →
  (page req = Some number →
   handler {| method := method req; query := query req; platform := platform req;
              page := Some (number +:+ String c rest); limit := limit req |} cache
   = handler req cache) ∧
  (limit req = Some number →
   handler {| method := method req; query := query req; platform := platform req;
              page := page req; limit := Some (number +:+ String c rest) |} cache
   = handler req cache).
Proof.
  intros Hn Hc.
  pose proof (integerValue_trailing number c rest n Hn Hc) as Htrail.
  split; intros Hreq; unfold handler, validate, pageInt, limitInt, parseInt;
    cbn [method query platform page limit]; rewrite Hreq;
    cbn [from_option]; by rewrite Htrail, Hn.
Qed.

Lemma text_after_the_number_is_ignored_witness :
  integerValue "2" = Some 2 ∧ digitValue "n" = None ∧
  handler (get "Alice" (Some "2nd") (Some "1")) (<["alice" := twoRecords]> ∅)
    = handler secondPage (<["alice" := twoRecords]> ∅).
Proof.
  split; [reflexivity|]. split; [reflexivity|].
  exact (proj1 (text_after_the_number_is_ignored "2" "n" "d" 2 secondPage
                  (<["alice" := twoRecords]> ∅) eq_refl eq_refl) eq_refl).
Defined.
